(** * A diagonal-Sudoku solver: constraint propagation and depth-first search

    Shallow embedding of [solution.py] and the properties of its board rules,
    its fixpoint loop and its search.

    Python strings are lists of characters.  A board is the dict
    [{box: candidates}] that [grid_values] builds from an 81-character grid:
    its keys are the 81 boxes, inserted in row-major order.  It is modelled by
    its lookup function; [values.values()] and iteration over the keys go
    through [boxes].  Where the source mutates the dict, the model passes the
    updated board on. *)

From Stdlib Require Import Ascii String List NArith ZArith Lia Bool Arith.
From Stdlib Require Import Sorting.Permutation.
From Stdlib Require Import Sorting.Sorted.
Import ListNotations.

Local Open Scope list_scope.

(** ** Strings *)

Definition str := list ascii.

(** A string literal. *)
Definition lit (x : string) : str := list_ascii_of_string x.

Fixpoint str_eqb (x y : str) : bool :=
  match x, y with
  | [], [] => true
  | a :: x', b :: y' => Ascii.eqb a b && str_eqb x' y'
  | _, _ => false
  end.

(** [digit in s] for a one-character [digit]. *)
Definition char_in (digit : ascii) (s : str) : bool :=
  existsb (Ascii.eqb digit) s.

Fixpoint is_prefix (p s : str) : bool :=
  match p, s with
  | [], _ => true
  | a :: p', b :: s' => Ascii.eqb a b && is_prefix p' s'
  | _ :: _, [] => false
  end.

(** Left-to-right scan of [s.replace(old, '')] for a non-empty [old]: [skip]
    counts the characters of a match that are still to be dropped. *)
Fixpoint replace_scan (old : str) (skip : nat) (s : str) : str :=
  match s with
  | [] => []
  | c :: s' =>
      match skip with
      | S k => replace_scan old k s'
      | O => if is_prefix old s
             then replace_scan old (length old - 1) s'
             else c :: replace_scan old 0 s'
      end
  end.

(** [s.replace(old, '')]; with an empty [old] Python inserts the empty
    replacement between the characters, which gives [s] back. *)
Definition str_replace (s old : str) : str :=
  match old with
  | [] => s
  | _ :: _ => replace_scan old 0 s
  end.

(** [re.sub(a + '|' + b, '', s)] for two literal characters: every occurrence
    of [a] or of [b] is deleted.  (Candidate strings hold digits, which are
    literal in a pattern.) *)
Definition re_sub_pair (a b : ascii) (s : str) : str :=
  List.filter (fun c => negb (Ascii.eqb c a || Ascii.eqb c b)) s.

Fixpoint insert_char (c : ascii) (l : str) : str :=
  match l with
  | [] => [c]
  | x :: l' => if (nat_of_ascii c <=? nat_of_ascii x)%nat
               then c :: l else x :: insert_char c l'
  end.

(** [''.join(sorted(s))]: the characters of [s] by code point. *)
Fixpoint sorted (s : str) : str :=
  match s with
  | [] => []
  | c :: s' => insert_char c (sorted s')
  end.

(** [str(n)] for a one-digit [n]. *)
Definition str_of_digit (n : Z) : str :=
  [ascii_of_nat (48 + Z.to_nat n)].

(** ** The constraint model (the global tables) *)

Definition cross (A B : str) : list str :=
  flat_map (fun a => map (fun b => [a] ++ [b]) B) A.

Fixpoint enumerate_from {X : Type} (i : Z) (l : list X) : list (Z * X) :=
  match l with
  | [] => []
  | x :: l' => (i, x) :: enumerate_from (i + 1)%Z l'
  end.

Definition enumerate {X : Type} (l : list X) : list (Z * X) := enumerate_from 0%Z l.

Definition rows : str := lit "ABCDEFGHI".
Definition cols : str := lit "123456789".
Definition boxes : list str := cross rows cols.
Definition row_units : list (list str) := map (fun row => cross [row] cols) rows.
Definition col_units : list (list str) := map (fun col => cross rows [col]) cols.
Definition square_units : list (list str) :=
  flat_map (fun xs => map (fun ys => cross xs ys) [lit "123"; lit "456"; lit "789"])
           [lit "ABC"; lit "DEF"; lit "GHI"].
Definition diag_tuples : list (str * str) :=
  flat_map (fun '(r, row) =>
    flat_map (fun '(c, col) =>
      if (r =? c)%Z
      then [([row] ++ [col], [row] ++ str_of_digit (Z.abs (c - 9)))]
      else [])
      (enumerate cols))
    (enumerate rows).
Definition diag_units : list (list str) := [map fst diag_tuples; map snd diag_tuples].
Definition units : list (list str) := row_units ++ col_units ++ square_units ++ diag_units.

Definition box_in (box : str) (unit : list str) : bool := existsb (str_eqb box) unit.

Definition boxdict (box : str) : list (list str) :=
  List.filter (box_in box) units.

Fixpoint dedup (l : list str) : list str :=
  match l with
  | [] => []
  | x :: l' => if box_in x l' then dedup l' else x :: dedup l'
  end.

(** The set of the boxes of the units of [boxdict[box]], less [box] itself,
    as a duplicate-free list. *)
Definition peers (box : str) : list str :=
  List.filter (fun p => negb (str_eqb p box)) (dedup (concat (boxdict box))).

(** ** Boards *)

Definition board := str -> str.

(** The dict with the given items, as its lookup function. *)
Definition dict_of (items : list (str * str)) : board :=
  fun box =>
    match find (fun kv => str_eqb (fst kv) box) items with
    | Some kv => snd kv
    | None => []
    end.

(** [values[box] = v] *)
Definition set_box (values : board) (box : str) (v : str) : board :=
  fun k => if str_eqb k box then v else values k.

(** [tuple(values.values())] *)
Definition tuple (values : board) : list str := map values boxes.

(** [values.copy()] *)
Definition copy (values : board) : board :=
  dict_of (map (fun box => (box, values box)) boxes).

Definition grid_values (grid : str) : board :=
  dict_of (map (fun '(box, val) =>
                  (box, if Ascii.eqb val "."%char then cols else [val]))
               (combine boxes grid)).

(** [subseq s t]: [s] is [t] with some characters deleted. *)
Inductive subseq : str -> str -> Prop :=
| subseq_nil : subseq [] []
| subseq_drop : forall c s t, subseq s t -> subseq s (c :: t)
| subseq_keep : forall c s t, subseq s t -> subseq (c :: s) (c :: t).

(** No candidate string of [after] has a character in a place where [before]
    has none. *)
Definition shrinks (after before : board) : Prop :=
  forall box, subseq (after box) (before box).

(** Equal as dicts over the 81 boxes. *)
Definition agree (v w : board) : Prop :=
  forall box, In box boxes -> v box = w box.

(** ** The three rules *)

Definition eliminate (values : board) : board :=
  let solved_boxes := List.filter (fun box => length (values box) =? 1) boxes in
  fold_left (fun values box =>
               let digit := values box in
               fold_left (fun values peer =>
                            set_box values peer (str_replace (values peer) digit))
                         (peers box) values)
            solved_boxes values.

Definition only_choice_digit (unit : list str) (values : board) (digit : ascii) : board :=
  let dplaces := List.filter (fun box => char_in digit (values box)) unit in
  match dplaces with
  | [box] => set_box values box [digit]
  | _ => values
  end.

Definition only_choice_unit (values : board) (unit : list str) : board :=
  fold_left (only_choice_digit unit) (lit "123456789") values.

Definition only_choice (values : board) : board :=
  fold_left only_choice_unit units values.

(** [d[val] += 1] on a [defaultdict(int)] kept in insertion order. *)
Fixpoint incr (d : list (str * nat)) (val : str) : list (str * nat) :=
  match d with
  | [] => [(val, 1)]
  | (k, n) :: d' => if str_eqb k val then (k, S n) :: d' else (k, n) :: incr d' val
  end.

Definition count_pairs (values : board) (unit : list str) : list (str * nat) :=
  fold_left (fun d box =>
               let val := values box in
               if length val =? 2 then incr d val else d)
            unit [].

(** The innermost loop of [naked_twins] for the key [a + b]. *)
Definition twins_sweep (unit : list str) (a b : ascii) (values : board) : board :=
  fold_left (fun values box =>
               if negb (str_eqb (values box) ([a] ++ [b]))
               then set_box values box (re_sub_pair a b (values box))
               else values)
            unit values.

Definition twins_item (unit : list str) (values : board) (item : str * nat) : board :=
  match item with
  | ([a; b], count) => if count =? 2 then twins_sweep unit a b values else values
  | _ => values
  end.

(** The body of the loop over [units] in [naked_twins]. *)
Definition naked_twins_unit (values : board) (unit : list str) : board :=
  let d := count_pairs values unit in
  fold_left (twins_item unit) d values.

Definition naked_twins (values : board) : board :=
  fold_left naked_twins_unit units values.

Definition reduce_puzzle (values : board) : board :=
  let values := eliminate values in
  let values := only_choice values in
  let values := naked_twins values in
  values.

(** ** Predicates on boards *)

Definition is_searchable (values : board) : bool :=
  81 <? length (concat (tuple values)).

Definition is_solved (values : board) : bool :=
  forallb (fun unit =>
             let unit_values_list := map values unit in
             let unit_values_str := sorted (concat unit_values_list) in
             str_eqb unit_values_str (lit "123456789"))
          units.

Definition box_key (values : board) (box : str) : nat :=
  if length (values box) =? 1 then 10 else length (values box).

(** [min] keeps the first of the smallest elements. *)
Fixpoint min_by {X : Type} (key : X -> nat) (best : X) (l : list X) : X :=
  match l with
  | [] => best
  | x :: l' => if key x <? key best then min_by key x l' else min_by key best l'
  end.

Definition find_smallest_box (values : board) : str :=
  match boxes with
  | [] => []
  | box :: l => min_by (box_key values) box l
  end.

(** ** Search *)

(** What [search] returns: a board, [False] or [None]. *)
Inductive result : Type :=
| Solved (values : board)
| ReturnFalse
| ReturnNone.

(** [if result:] -- a dict of 81 items is true, [False] and [None] are not. *)
Definition truthy (r : result) : bool :=
  match r with
  | Solved _ => true
  | ReturnFalse | ReturnNone => false
  end.

(** The number of characters on the board; each pass of the loop in [search]
    that does not break removes at least one (see [reduce_loop_total]). *)
Definition candidate_count (values : board) : nat :=
  length (concat (tuple values)).

Section Hash.

(** The builtin [hash] on tuples of strings. *)
Variable hash : list str -> Z.

Definition is_same (before after : board) : bool :=
  (hash (tuple before) =? hash (tuple after))%Z.

(** The [while True] loop of [search].  [None]: the passes allowed ran out. *)
Fixpoint reduce_loop (passes : nat) (values : board) : option board :=
  match passes with
  | O => None
  | S passes' =>
      let reduced := reduce_puzzle (copy values) in
      if is_same values reduced then Some values
      else reduce_loop passes' reduced
  end.

(** The [for guess in guesses] loop; [rec] is the recursive call. *)
Fixpoint try_guesses (rec : board -> option result)
         (values : board) (box : str) (guesses : str) : option result :=
  match guesses with
  | [] => Some ReturnNone
  | guess :: guesses' =>
      let values := set_box values box [guess] in
      match rec (copy values) with
      | None => None
      | Some result =>
          if truthy result then Some result
          else try_guesses rec values box guesses'
      end
  end.

(** [search] from the dead check on (after the solved check). *)
Definition search_branch (rec : board -> option result) (values : board)
  : option result :=
  if negb (is_searchable values) then Some ReturnFalse
  else
    let box := find_smallest_box values in
    let guesses := values box in
    try_guesses rec values box guesses.

(** [fuel] bounds the depth of the recursion; [None]: it ran out. *)
Fixpoint search (fuel : nat) (values : board) : option result :=
  match fuel with
  | O => None
  | S fuel' =>
      match reduce_loop (S (candidate_count values)) values with
      | None => None
      | Some values =>
          if is_solved values then Some (Solved values)
          else search_branch (search fuel') values
      end
  end.

Definition solve (fuel : nat) (grid : str) : option result :=
  let values := grid_values grid in
  search fuel values.

End Hash.

(** ** Auxiliary definitions: checks, example boards, statement vocabulary *)

Definition off_diagonals_20 (box : str) : bool :=
  box_in box (map fst diag_tuples) || box_in box (map snd diag_tuples)
  || (length (peers box) =? 20).

Definition units_check : bool :=
  forallb (fun unit => (length unit =? 9) && forallb (fun box => box_in box boxes) unit)
          units
  && forallb (fun box => existsb (box_in box) units) boxes.

Definition after_passes (k : nat) (values : board) : board :=
  Nat.iter k (fun v => reduce_puzzle (copy v)) values.

(** A solved grid (the fourth sample of the source) and a stand-in for the
    builtin hash, to run the functions on examples. *)
Definition solved_grid : str :=
  lit "267584391159362748834917526496738215312495687578621439643159872925873164781246953".

Definition length_hash (t : list str) : Z := Z.of_nat (length (concat t)).

Definition empty_grid : str := repeat "."%char 81.

(** The branches of a node, in the words of the spec: the first branch that
    yields success is returned; if all fail, the node fails.  [None] marks a
    branch without result. *)
Fixpoint first_success (results : list (option result)) : option result :=
  match results with
  | [] => Some ReturnNone
  | None :: _ => None
  | Some r :: rest => if truthy r then Some r else first_success rest
  end.

Definition dead_board : board :=
  set_box (set_box (set_box (set_box (grid_values solved_grid)
    (lit "A1") (lit "6")) (lit "A2") []) (lit "G1") []) (lit "H8") [].


Fixpoint index_of (box : str) (l : list str) : option nat :=
  match l with
  | [] => None
  | x :: l' => if str_eqb x box then Some 0 else option_map S (index_of box l')
  end.

(** The board whose box number [i] (in the order A1..I9) holds "1" when bit
    [i] of [n] is set and "2" otherwise. *)
Definition bits_board (n : N) : board :=
  fun box =>
    match index_of box boxes with
    | Some i => if N.testbit n (N.of_nat i) then lit "1" else lit "2"
    | None => []
    end.

(** The boxes of [unit] whose candidate string is [s]. *)
Definition holders (values : board) (unit : list str) (s : str) : list str :=
  List.filter (fun box => str_eqb (values box) s) unit.

Fixpoint nodupb (l : list str) : bool :=
  match l with
  | [] => true
  | x :: l' => negb (box_in x l') && nodupb l'
  end.

(** [d[k]] if [k] is a key of [d]. *)
Fixpoint get_count (d : list (str * nat)) (k : str) : option nat :=
  match d with
  | [] => None
  | (k', n) :: d' => if str_eqb k' k then Some n else get_count d' k
  end.

(** What the dict [d] of [naked_twins] holds after the boxes [seen]. *)
Definition counts (values : board) (seen : list str) (d : list (str * nat)) : Prop :=
  NoDup (map fst d) /\
  forall k, get_count d k
            = if (length k =? 2) && (0 <? length (holders values seen k))
              then Some (length (holders values seen k)) else None.

Definition twin_board : board :=
  set_box (set_box (set_box (set_box (grid_values empty_grid)
    (lit "A1") (lit "12")) (lit "A2") (lit "12")) (lit "B1") (lit "23"))
    (lit "C1") (lit "23").

Definition double_twin_board : board :=
  set_box (set_box (set_box (set_box (grid_values empty_grid)
    (lit "A1") (lit "12")) (lit "A2") (lit "12")) (lit "A3") (lit "13"))
    (lit "A4") (lit "13").

(** Some box of [l] holding [c] has [k] among its peers. *)
Definition removed_by (values : board) (l : list str) (k : str) (c : ascii) : bool :=
  existsb (fun b => char_in c (values b) && box_in k (peers b)) l.

(** No box has a solved peer with the same candidate string. *)
Definition consistent (values : board) : Prop :=
  forall b b', In b boxes -> In b' boxes -> length (values b) = 1 ->
               In b' (peers b) -> values b' <> values b.

Definition consistentb (values : board) : bool :=
  forallb (fun b =>
    forallb (fun b' => negb ((length (values b) =? 1) && box_in b' (peers b)
                             && str_eqb (values b') (values b))) boxes) boxes.

(** The box was left alone, or set to a digit that no other box of one of its
    units holds. *)
Definition assigned (values s : board) (box : str) : Prop :=
  s box = values box \/
  exists digit unit,
    In digit cols /\ In unit units /\ In box unit /\ s box = [digit] /\
    In digit (values box) /\
    forall other, In other unit -> other <> box -> ~ In digit (s other).

Definition lone_board : board :=
  fun box => if box_in box (tl (cross (lit "A") cols)) then lit "1234"
             else grid_values empty_grid box.

Definition all_single (values : board) : bool :=
  forallb (fun box => length (values box) =? 1) boxes.

Definition table_check (box : str) : bool :=
  let n := length (boxdict box) in
  let d1 := box_in box (map fst diag_tuples) in
  let d2 := box_in box (map snd diag_tuples) in
  (n =? 3 + (if d1 then 1 else 0) + (if d2 then 1 else 0))
  && (length (peers box) =? 20 + (if d1 then 6 else 0) + (if d2 then 6 else 0)).

(** [eliminate] with the peers of each box enumerated by [order]. *)
Definition eliminate_in_order (order : str -> list str) (values : board) : board :=
  let solved_boxes := List.filter (fun box => length (values box) =? 1) boxes in
  fold_left (fun values box =>
               let digit := values box in
               fold_left (fun values peer =>
                            set_box values peer (str_replace (values peer) digit))
                         (order box) values)
            solved_boxes values.

(** ['{:^10}'.format(s)]: [s] centred in a field of 10, the odd space on the
    right; a longer [s] is printed whole. *)
Definition center10 (s : str) : str :=
  let pad := 10 - length s in
  repeat " "%char (pad / 2) ++ s ++ repeat " "%char (pad - pad / 2).

(** The line that the inner loop of [display] prints for [row]. *)
Definition display_row (values : board) (row : list str) : str :=
  concat (map (fun '(c, box) =>
                 (if ((c mod 3 =? 0) && (0 <? c))%Z then lit " | " else [])
                 ++ center10 (values box))
              (enumerate row)).

(** The lines that [display] prints, each ended by a [print]. *)
Definition display (values : board) : list str :=
  flat_map (fun '(r, row) =>
              (if ((r mod 3 =? 0) && (0 <? r))%Z then [repeat "-"%char 95] else [])
              ++ [display_row values row])
           (enumerate row_units).



(** The two-character strings that exactly two boxes of the unit hold, in
    the order of the dict [d]. *)
Definition twin_strings (values : board) (unit : list str) : list str :=
  map fst (List.filter (fun item => snd item =? 2) (count_pairs values unit)).

(** What the sweep for the key [s] does to a candidate string [cur] of the
    unit. *)
Definition sweep_cell (cur s : str) : str :=
  match s with
  | [a; b] => if negb (str_eqb cur ([a] ++ [b])) then re_sub_pair a b cur else cur
  | _ => cur
  end.

Definition disjoint_twin_board : board :=
  set_box (set_box (set_box (set_box (grid_values empty_grid)
    (lit "A1") (lit "12")) (lit "A2") (lit "12")) (lit "A3") (lit "34"))
    (lit "A4") (lit "34").

Definition merged_twin_board : board :=
  set_box (set_box (set_box (set_box (set_box (grid_values empty_grid)
    (lit "A1") (lit "34")) (lit "A2") (lit "34")) (lit "A3") (lit "12"))
    (lit "A4") (lit "12")) (lit "A5") (lit "1234").



(** * Properties *)

(** ** Strings and subsequences *)

Lemma str_eqb_eq (x y : str) : str_eqb x y = true <-> x = y.
Proof.
  revert y; induction x as [|a x IH]; intros [|b y]; simpl; split;
    try congruence; try reflexivity.
  - intros H. apply andb_true_iff in H as [Hab Hxy].
    apply Ascii.eqb_eq in Hab. apply IH in Hxy. congruence.
  - intros H. inversion H; subst. rewrite Ascii.eqb_refl. simpl.
    now apply IH.
Qed.

Lemma str_eqb_refl (x : str) : str_eqb x x = true.
Proof. now apply str_eqb_eq. Qed.

Lemma str_eqb_neq (x y : str) : str_eqb x y = false <-> x <> y.
Proof.
  split.
  - intros H E. apply str_eqb_eq in E. congruence.
  - intros H. destruct (str_eqb x y) eqn:E; [|reflexivity].
    apply str_eqb_eq in E. contradiction.
Qed.

Lemma char_in_In (d : ascii) (s : str) : char_in d s = true <-> In d s.
Proof.
  unfold char_in. rewrite existsb_exists. split.
  - intros (x & Hx & E). apply Ascii.eqb_eq in E. now subst.
  - intros H. exists d. split; [assumption | apply Ascii.eqb_refl].
Qed.

Lemma box_in_In (box : str) (unit : list str) : box_in box unit = true <-> In box unit.
Proof.
  unfold box_in. rewrite existsb_exists. split.
  - intros (x & Hx & E). apply str_eqb_eq in E. now subst.
  - intros H. exists box. split; [assumption | apply str_eqb_refl].
Qed.

Lemma subseq_refl (s : str) : subseq s s.
Proof. induction s; constructor; assumption. Qed.

Lemma subseq_nil_l (s : str) : subseq [] s.
Proof. induction s; constructor; assumption. Qed.

Lemma subseq_length (s t : str) : subseq s t -> length s <= length t.
Proof. induction 1; simpl; lia. Qed.

Lemma subseq_trans (s t u : str) : subseq s t -> subseq t u -> subseq s u.
Proof.
  intros Hst Htu. revert s Hst.
  induction Htu as [|c t u Htu IH|c t u Htu IH]; intros s Hst.
  - assumption.
  - constructor. now apply IH.
  - inversion Hst; subst.
    + apply subseq_drop. now apply IH.
    + apply subseq_keep. now apply IH.
Qed.

Lemma subseq_same_length (s t : str) : subseq s t -> length s = length t -> s = t.
Proof.
  induction 1 as [|c s t H IH|c s t H IH]; simpl; intros E.
  - reflexivity.
  - apply subseq_length in H. lia.
  - f_equal. apply IH. lia.
Qed.

Lemma subseq_In (s t : str) (d : ascii) : subseq s t -> In d s -> In d t.
Proof.
  induction 1 as [|c s t H IH|c s t H IH]; simpl; intros Hd.
  - contradiction.
  - right. now apply IH.
  - destruct Hd as [->|Hd]; [now left | right; now apply IH].
Qed.

Lemma subseq_filter (f : ascii -> bool) (s : str) : subseq (List.filter f s) s.
Proof.
  induction s as [|c s IH]; simpl; [constructor|].
  destruct (f c); [apply subseq_keep | apply subseq_drop]; assumption.
Qed.

Lemma subseq_single (d : ascii) (s : str) : In d s -> subseq [d] s.
Proof.
  induction s as [|c s IH]; simpl; intros H; [contradiction|].
  destruct H as [->|H].
  - apply subseq_keep, subseq_nil_l.
  - apply subseq_drop. now apply IH.
Qed.

Lemma subseq_replace_scan (old : str) (s : str) :
  forall skip, subseq (replace_scan old skip s) s.
Proof.
  induction s as [|c s IH]; intros skip; [constructor|].
  cbn [replace_scan]. destruct skip as [|k].
  - destruct (is_prefix old (c :: s)).
    + apply subseq_drop, IH.
    + apply subseq_keep, IH.
  - apply subseq_drop, IH.
Qed.

Lemma subseq_str_replace (s old : str) : subseq (str_replace s old) s.
Proof.
  destruct old as [|a old]; simpl.
  - apply subseq_refl.
  - apply (subseq_replace_scan (a :: old) s 0).
Qed.

Lemma subseq_antisym (s t : str) : subseq s t -> subseq t s -> s = t.
Proof.
  intros H1 H2. apply subseq_same_length; [assumption|].
  apply subseq_length in H1. apply subseq_length in H2. lia.
Qed.

(** ** Boards: update, shrinking, folds *)

Lemma set_box_same (values : board) (box : str) (v : str) :
  set_box values box v box = v.
Proof. unfold set_box. now rewrite str_eqb_refl. Qed.

Lemma set_box_other (values : board) (box k : str) (v : str) :
  k <> box -> set_box values box v k = values k.
Proof. unfold set_box. intros H. apply str_eqb_neq in H. now rewrite H. Qed.

Lemma shrinks_refl (v : board) : shrinks v v.
Proof. intros box. apply subseq_refl. Qed.

Lemma shrinks_trans (u v w : board) : shrinks u v -> shrinks v w -> shrinks u w.
Proof. intros H1 H2 box. eapply subseq_trans; [apply H1 | apply H2]. Qed.

Lemma shrinks_set_box (values : board) (box : str) (v : str) :
  subseq v (values box) -> shrinks (set_box values box v) values.
Proof.
  intros H k. unfold set_box. destruct (str_eqb k box) eqn:E.
  - apply str_eqb_eq in E. now subst.
  - apply subseq_refl.
Qed.

Lemma fold_left_shrinks {X : Type} (f : board -> X -> board) :
  (forall v x, shrinks (f v x) v) ->
  forall l v, shrinks (fold_left f l v) v.
Proof.
  intros Hf l. induction l as [|x l IH]; intros v; simpl.
  - apply shrinks_refl.
  - eapply shrinks_trans; [apply IH | apply Hf].
Qed.

Lemma eliminate_shrinks (values : board) : shrinks (eliminate values) values.
Proof.
  unfold eliminate. apply fold_left_shrinks. intros v box.
  apply fold_left_shrinks. intros w peer.
  apply shrinks_set_box, subseq_str_replace.
Qed.

Lemma only_choice_digit_shrinks (unit : list str) (values : board) (digit : ascii) :
  shrinks (only_choice_digit unit values digit) values.
Proof.
  unfold only_choice_digit.
  destruct (List.filter _ unit) as [|box [|box' l]] eqn:E;
    try apply shrinks_refl.
  apply shrinks_set_box, subseq_single.
  assert (H : In box (List.filter (fun box => char_in digit (values box)) unit))
    by (rewrite E; now left).
  apply filter_In in H as [_ H]. now apply char_in_In.
Qed.

Lemma only_choice_unit_shrinks (values : board) (unit : list str) :
  shrinks (only_choice_unit values unit) values.
Proof.
  unfold only_choice_unit. apply fold_left_shrinks.
  intros v d. apply only_choice_digit_shrinks.
Qed.

Lemma only_choice_shrinks (values : board) : shrinks (only_choice values) values.
Proof.
  unfold only_choice. apply fold_left_shrinks. intros v u.
  apply only_choice_unit_shrinks.
Qed.

Lemma twins_sweep_shrinks (unit : list str) (a b : ascii) (values : board) :
  shrinks (twins_sweep unit a b values) values.
Proof.
  unfold twins_sweep. apply fold_left_shrinks. intros v box.
  destruct (negb _); [|apply shrinks_refl].
  apply shrinks_set_box, subseq_filter.
Qed.

Lemma twins_item_shrinks (unit : list str) (values : board) (item : str * nat) :
  shrinks (twins_item unit values item) values.
Proof.
  destruct item as [[|a [|b [|c k]]] count]; simpl; try apply shrinks_refl.
  destruct (count =? 2); [apply twins_sweep_shrinks | apply shrinks_refl].
Qed.

Lemma naked_twins_unit_shrinks (values : board) (unit : list str) :
  shrinks (naked_twins_unit values unit) values.
Proof.
  unfold naked_twins_unit. apply fold_left_shrinks. intros v item.
  apply twins_item_shrinks.
Qed.

Lemma naked_twins_shrinks (values : board) : shrinks (naked_twins values) values.
Proof.
  unfold naked_twins. apply fold_left_shrinks. intros v u.
  apply naked_twins_unit_shrinks.
Qed.

Lemma reduce_puzzle_shrinks (values : board) : shrinks (reduce_puzzle values) values.
Proof.
  unfold reduce_puzzle.
  eapply shrinks_trans; [apply naked_twins_shrinks|].
  eapply shrinks_trans; [apply only_choice_shrinks | apply eliminate_shrinks].
Qed.

(** C3 -- Monotonic shrink: after one application of [eliminate], of
    [only_choice] or of [naked_twins] to any board, every digit in a box's
    candidate string was in that box's candidate string before. *)
Theorem rules_monotonic_shrink (values : board) (box : str) (digit : ascii) :
  (In digit (eliminate values box) -> In digit (values box)) /\
  (In digit (only_choice values box) -> In digit (values box)) /\
  (In digit (naked_twins values box) -> In digit (values box)).
Proof.
  repeat split; apply subseq_In.
  - apply eliminate_shrinks.
  - apply only_choice_shrinks.
  - apply naked_twins_shrinks.
Qed.

(** ** The constraint model *)

Lemma dedup_In (x : str) (l : list str) : In x (dedup l) <-> In x l.
Proof.
  induction l as [|y l IH]; simpl; [tauto|].
  destruct (box_in y l) eqn:E.
  - rewrite IH. apply box_in_In in E. split; [tauto|].
    intros [->|H]; assumption.
  - simpl. rewrite IH. tauto.
Qed.

Lemma dedup_NoDup (l : list str) : NoDup (dedup l).
Proof.
  induction l as [|y l IH]; simpl; [constructor|].
  destruct (box_in y l) eqn:E; [assumption|].
  constructor; [|assumption].
  rewrite dedup_In. intros H. apply box_in_In in H. congruence.
Qed.

Lemma peers_NoDup (box : str) : NoDup (peers box).
Proof. unfold peers. apply NoDup_filter, dedup_NoDup. Qed.

Lemma peers_spec (a b : str) :
  In a (peers b) <-> a <> b /\ exists unit, In unit units /\ In b unit /\ In a unit.
Proof.
  unfold peers, boxdict. rewrite filter_In, dedup_In, in_concat. split.
  - intros [(u & Hu & Ha) Hne]. apply negb_true_iff, str_eqb_neq in Hne.
    apply filter_In in Hu as [Hu Hb]. apply box_in_In in Hb.
    split; [assumption|]. now exists u.
  - intros [Hne (u & Hu & Hb & Ha)]. split.
    + exists u. split; [|assumption]. apply filter_In.
      split; [assumption|]. now apply box_in_In.
    + now apply negb_true_iff, str_eqb_neq.
Qed.

Lemma off_diagonals_20_all : forallb off_diagonals_20 boxes = true.
Proof. vm_compute. reflexivity. Qed.

(** C9 -- Constraint-model invariants: for any two cells [a] and [b], [a] is
    in [peers[b]] if and only if [b] is in [peers[a]]; no cell is in its own
    peer set; and a cell on neither diagonal has exactly 20 peers (the peer
    set holds no cell twice). *)
Theorem peers_invariants (a b : str) :
  In a boxes -> In b boxes ->
  (In a (peers b) <-> In b (peers a)) /\
  ~ In a (peers a) /\
  NoDup (peers a) /\
  (~ In a (map fst diag_tuples) -> ~ In a (map snd diag_tuples) ->
   length (peers a) = 20).
Proof.
  intros Ha Hb. repeat split.
  - rewrite !peers_spec. intros [Hne (u & Hu & H1 & H2)].
    split; [congruence | now exists u].
  - rewrite !peers_spec. intros [Hne (u & Hu & H1 & H2)].
    split; [congruence | now exists u].
  - rewrite peers_spec. intros [Hne _]. now apply Hne.
  - apply peers_NoDup.
  - intros Hd1 Hd2.
    pose proof (proj1 (forallb_forall _ _) off_diagonals_20_all a Ha) as H.
    unfold off_diagonals_20 in H.
    apply orb_true_iff in H as [H|H]; [apply orb_true_iff in H as [H|H]|].
    + apply box_in_In in H. contradiction.
    + apply box_in_In in H. contradiction.
    + now apply Nat.eqb_eq.
Qed.

Lemma peers_invariants_witness :
  (In (lit "A2") (peers (lit "B1")) <-> In (lit "B1") (peers (lit "A2"))) /\
  ~ In (lit "A2") (peers (lit "A2")) /\
  NoDup (peers (lit "A2")) /\
  (~ In (lit "A2") (map fst diag_tuples) -> ~ In (lit "A2") (map snd diag_tuples) ->
   length (peers (lit "A2")) = 20).
Proof.
  apply (peers_invariants (lit "A2") (lit "B1")).
  - apply box_in_In. vm_compute. reflexivity.
  - apply box_in_In. vm_compute. reflexivity.
Defined.

Lemma units_check_ok : units_check = true.
Proof. vm_compute. reflexivity. Qed.

Lemma unit_length (unit : list str) : In unit units -> length unit = 9.
Proof.
  intros Hu. pose proof units_check_ok as H. unfold units_check in H.
  apply andb_true_iff in H as [H _].
  apply (proj1 (forallb_forall _ _) H) in Hu.
  apply andb_true_iff in Hu as [Hu _]. now apply Nat.eqb_eq.
Qed.

Lemma unit_boxes (unit : list str) (box : str) :
  In unit units -> In box unit -> In box boxes.
Proof.
  intros Hu Hb. pose proof units_check_ok as H. unfold units_check in H.
  apply andb_true_iff in H as [H _].
  apply (proj1 (forallb_forall _ _) H) in Hu.
  apply andb_true_iff in Hu as [_ Hu].
  apply (proj1 (forallb_forall _ _) Hu) in Hb. now apply box_in_In.
Qed.

Lemma box_has_unit (box : str) :
  In box boxes -> exists unit, In unit units /\ In box unit.
Proof.
  intros Hb. pose proof units_check_ok as H. unfold units_check in H.
  apply andb_true_iff in H as [_ H].
  apply (proj1 (forallb_forall _ _) H) in Hb.
  apply existsb_exists in Hb as (u & Hu & Hb). exists u.
  split; [assumption | now apply box_in_In].
Qed.

Lemma boxes_length : length boxes = 81.
Proof. reflexivity. Qed.

(** ** Copies and tuples *)

Lemma dict_of_tabulate (f : str -> str) (l : list str) (k : str) :
  dict_of (map (fun box => (box, f box)) l) k = if box_in k l then f k else [].
Proof.
  unfold dict_of. induction l as [|x l IH]; simpl; [reflexivity|].
  destruct (str_eqb x k) eqn:E.
  - apply str_eqb_eq in E. subst. now rewrite str_eqb_refl.
  - simpl. destruct (str_eqb k x) eqn:E'.
    + apply str_eqb_eq in E'. subst. rewrite str_eqb_refl in E. discriminate.
    + simpl. exact IH.
Qed.

Lemma copy_agree (values : board) : agree (copy values) values.
Proof.
  intros box Hb. unfold copy. rewrite dict_of_tabulate.
  apply box_in_In in Hb. now rewrite Hb.
Qed.

Lemma copy_shrinks (values : board) : shrinks (copy values) values.
Proof.
  intros box. unfold copy. rewrite dict_of_tabulate.
  destruct (box_in box boxes); [apply subseq_refl | apply subseq_nil_l].
Qed.

Lemma agree_refl (v : board) : agree v v.
Proof. intros box _. reflexivity. Qed.

Lemma agree_sym (v w : board) : agree v w -> agree w v.
Proof. intros H box Hb. symmetry. now apply H. Qed.

Lemma agree_trans (u v w : board) : agree u v -> agree v w -> agree u w.
Proof. intros H1 H2 box Hb. rewrite H1, H2; auto. Qed.

Lemma tuple_agree (v w : board) : tuple v = tuple w <-> agree v w.
Proof.
  unfold tuple, agree. split.
  - intros H box Hb. induction boxes as [|x l IH]; [contradiction|].
    simpl in H. inversion H. destruct Hb as [->|Hb]; auto.
  - intros H. apply map_ext_in. exact H.
Qed.

Lemma copy_ext (v w : board) : agree v w -> copy v = copy w.
Proof.
  intros H. unfold copy. f_equal. apply map_ext_in.
  intros box Hb. now rewrite (H box Hb).
Qed.

Lemma tuple_eq_dec (v w : board) : {tuple v = tuple w} + {tuple v <> tuple w}.
Proof. apply list_eq_dec, list_eq_dec, ascii_dec. Qed.

(** ** The measure of the loop *)

Lemma shrinks_count_le (after before : board) (l : list str) :
  shrinks after before ->
  length (concat (map after l)) <= length (concat (map before l)).
Proof.
  intros H. induction l as [|x l IH]; simpl; [lia|].
  rewrite !length_app. specialize (H x). apply subseq_length in H. lia.
Qed.

Lemma shrinks_count_eq (after before : board) (l : list str) :
  shrinks after before ->
  length (concat (map after l)) = length (concat (map before l)) ->
  forall box, In box l -> after box = before box.
Proof.
  intros H. induction l as [|x l IH]; simpl; intros E box Hb; [contradiction|].
  rewrite !length_app in E.
  pose proof (subseq_length _ _ (H x)) as Hx.
  pose proof (shrinks_count_le after before l H) as Hl.
  destruct Hb as [->|Hb].
  - apply subseq_same_length; [apply H | lia].
  - apply IH; [lia | assumption].
Qed.

Lemma shrinks_candidate_count (after before : board) :
  shrinks after before ->
  candidate_count after < candidate_count before \/ agree after before.
Proof.
  intros H. unfold candidate_count, tuple.
  pose proof (shrinks_count_le after before boxes H) as Hle.
  destruct (Nat.eq_dec (length (concat (map after boxes)))
                       (length (concat (map before boxes)))) as [E|N].
  - right. intros box Hb. now apply (shrinks_count_eq after before boxes).
  - left. lia.
Qed.

Lemma shrinks_sandwich (u v w : board) :
  shrinks u v -> shrinks v w -> agree u w -> agree v w.
Proof.
  intros H1 H2 H box Hb. apply subseq_antisym; [apply H2|].
  rewrite <- (H box Hb). apply H1.
Qed.

Lemma pass_shrinks (values : board) : shrinks (reduce_puzzle (copy values)) values.
Proof.
  eapply shrinks_trans; [apply reduce_puzzle_shrinks | apply copy_shrinks].
Qed.

Lemma is_same_agree (hash : list str -> Z) (v w : board) :
  agree v w -> is_same hash v w = true.
Proof.
  intros H. unfold is_same. apply tuple_agree in H. rewrite H.
  apply Z.eqb_refl.
Qed.

Lemma reduce_loop_total (hash : list str -> Z) (passes : nat) :
  forall values, candidate_count values < passes ->
  exists v, reduce_loop hash passes values = Some v.
Proof.
  induction passes as [|n IH]; intros values Hlt; [lia|].
  simpl. destruct (is_same hash values (reduce_puzzle (copy values))) eqn:E.
  - now exists values.
  - apply IH.
    destruct (shrinks_candidate_count _ _ (pass_shrinks values)) as [Hc|Ha].
    + lia.
    + apply agree_sym, (is_same_agree hash) in Ha. congruence.
Qed.

Lemma reduce_loop_exit (hash : list str -> Z) (passes : nat) :
  forall values v, reduce_loop hash passes values = Some v ->
  shrinks v values /\ is_same hash v (reduce_puzzle (copy v)) = true.
Proof.
  induction passes as [|n IH]; intros values v H; [discriminate|].
  simpl in H. destruct (is_same hash values (reduce_puzzle (copy values))) eqn:E.
  - inversion H; subst. split; [apply shrinks_refl | assumption].
  - apply IH in H as [H1 H2]. split; [|assumption].
    eapply shrinks_trans; [exact H1 | apply pass_shrinks].
Qed.

Lemma reduce_loop_fixpoint (hash : list str -> Z) (passes : nat) (values : board) :
  agree (reduce_puzzle (copy values)) values ->
  reduce_loop hash (S passes) values = Some values.
Proof.
  intros H. simpl. now rewrite (is_same_agree hash _ _ (agree_sym _ _ H)).
Qed.

Lemma passes_reach_fixpoint (n : nat) :
  forall values, candidate_count values <= n ->
  exists k, k <= n /\
    agree (reduce_puzzle (copy (after_passes k values))) (after_passes k values).
Proof.
  induction n as [|n IH]; intros values Hle.
  - exists 0. split; [lia|]. simpl.
    destruct (shrinks_candidate_count _ _ (pass_shrinks values)); [lia | assumption].
  - destruct (shrinks_candidate_count _ _ (pass_shrinks values)) as [Hc|Ha].
    + destruct (IH (reduce_puzzle (copy values))) as (k & Hk & Hfix); [lia|].
      exists (S k). split; [lia|]. unfold after_passes in *.
      rewrite Nat.iter_succ_r. exact Hfix.
    + exists 0. split; [lia | exact Ha].
Qed.

(** C5 -- The propagation loop terminates for every input board: the loop of
    [search] exits within [candidate_count values + 1] passes whatever the
    hash; repeated passes of [reduce_puzzle] reach, within
    [candidate_count values] passes, a pass that changes no box; and this is
    so because a pass only removes characters: it either lowers the total
    candidate count or changes nothing. *)
Theorem propagation_terminates (hash : list str -> Z) (values : board) :
  (exists v, reduce_loop hash (S (candidate_count values)) values = Some v) /\
  (exists k, k <= candidate_count values /\
     agree (reduce_puzzle (copy (after_passes k values))) (after_passes k values)) /\
  (forall box digit, In digit (reduce_puzzle (copy values) box) -> In digit (values box)) /\
  (candidate_count (reduce_puzzle (copy values)) < candidate_count values \/
   agree (reduce_puzzle (copy values)) values).
Proof.
  repeat split.
  - apply reduce_loop_total. lia.
  - apply passes_reach_fixpoint. lia.
  - intros box digit. apply subseq_In, pass_shrinks.
  - apply shrinks_candidate_count, pass_shrinks.
Qed.

(** ** Solved boards *)

Lemma insert_char_perm (c : ascii) (l : str) : Permutation (insert_char c l) (c :: l).
Proof.
  induction l as [|x l IH]; simpl; [reflexivity|].
  destruct (nat_of_ascii c <=? nat_of_ascii x); [reflexivity|].
  rewrite IH. apply perm_swap.
Qed.

Lemma sorted_perm (s : str) : Permutation (sorted s) s.
Proof.
  induction s as [|c s IH]; simpl; [reflexivity|].
  rewrite insert_char_perm. now constructor.
Qed.

Lemma cols_NoDup : NoDup cols.
Proof.
  unfold cols, lit. simpl.
  repeat (constructor; [simpl; intuition discriminate|]). constructor.
Qed.

Lemma is_solved_unit (values : board) (unit : list str) :
  is_solved values = true -> In unit units ->
  sorted (concat (map values unit)) = lit "123456789".
Proof.
  unfold is_solved. intros H Hu.
  apply (proj1 (forallb_forall _ _) H) in Hu. now apply str_eqb_eq.
Qed.

Lemma is_solved_perm (values : board) (unit : list str) :
  is_solved values = true -> In unit units ->
  Permutation (concat (map values unit)) cols.
Proof.
  intros H Hu. rewrite <- (sorted_perm (concat (map values unit))).
  now rewrite (is_solved_unit values unit H Hu).
Qed.

Lemma is_solved_ext (v w : board) : agree v w -> is_solved v = is_solved w.
Proof.
  intros H. unfold is_solved.
  assert (E : forall l, (forall u, In u l -> In u units) ->
     forallb (fun unit => str_eqb (sorted (concat (map v unit))) (lit "123456789")) l
     = forallb (fun unit => str_eqb (sorted (concat (map w unit))) (lit "123456789")) l).
  { induction l as [|u l IH]; cbn [forallb]; intros Hl; [reflexivity|].
    rewrite IH by (intros; apply Hl; now right).
    do 4 f_equal. apply map_ext_in. intros box Hb. apply H.
    apply (unit_boxes u); [apply Hl; now left | assumption]. }
  apply E. auto.
Qed.

Lemma try_guesses_solved (P : board -> Prop) (rec : board -> option result) :
  (forall b r, rec b = Some (Solved r) -> P r) ->
  forall guesses values box r,
    try_guesses rec values box guesses = Some (Solved r) -> P r.
Proof.
  intros Hrec guesses. induction guesses as [|g guesses IH]; intros values box r H.
  - discriminate.
  - simpl in H. destruct (rec (copy (set_box values box [g]))) as [res|] eqn:E;
      [|discriminate].
    destruct (truthy res) eqn:T.
    + inversion H; subst. now apply (Hrec _ _ E).
    + now apply IH in H.
Qed.

Lemma search_solved (hash : list str -> Z) (fuel : nat) :
  forall values r, search hash fuel values = Some (Solved r) ->
  is_solved r = true /\ is_same hash r (reduce_puzzle (copy r)) = true.
Proof.
  induction fuel as [|fuel IH]; intros values r H; [discriminate|].
  cbn [search] in H.
  destruct (reduce_loop hash (S (candidate_count values)) values) as [v|] eqn:L;
    [|discriminate].
  destruct (is_solved v) eqn:Hs.
  - inversion H; subst. split; [assumption|].
    now apply reduce_loop_exit in L.
  - unfold search_branch in H.
    destruct (negb (is_searchable v)); [discriminate|].
    revert H.
    apply (try_guesses_solved
             (fun r => is_solved r = true /\
                       is_same hash r (reduce_puzzle (copy r)) = true)).
    exact IH.
Qed.

(** C1 -- Solution validity: in every board that [search] (and hence [solve])
    returns as solved, each of the 29 units passes the check of [is_solved]:
    the candidate strings of its 9 cells, concatenated and sorted, are
    "123456789" -- 9 characters, each digit once. *)
Theorem search_result_units_valid (hash : list str -> Z) (fuel : nat)
        (values r : board) (unit : list str) :
  search hash fuel values = Some (Solved r)
  \/ (exists grid, solve hash fuel grid = Some (Solved r)) ->
  In unit units ->
  sorted (concat (map r unit)) = lit "123456789" /\
  Permutation (concat (map r unit)) cols /\
  NoDup (concat (map r unit)) /\
  length (concat (map r unit)) = 9.
Proof.
  intros H Hu.
  assert (Hs : is_solved r = true).
  { destruct H as [H|(grid & H)]; [|unfold solve in H];
      now apply search_solved in H. }
  pose proof (is_solved_perm r unit Hs Hu) as P.
  split; [now apply is_solved_unit|]. split; [assumption|]. split.
  - apply (Permutation_NoDup (Permutation_sym P)), cols_NoDup.
  - now rewrite (Permutation_length P).
Qed.

(** ** A fixpoint that passes the solved check has only solved cells *)

Lemma fold_left_fixpoint {X : Type} (f : board -> X -> board) :
  (forall v x, shrinks (f v x) v) ->
  forall l1 x l2 s,
    agree (fold_left f (l1 ++ x :: l2) s) s ->
    agree (fold_left f l1 s) s /\ agree (f (fold_left f l1 s) x) s.
Proof.
  intros Hf l1 x l2 s H. rewrite fold_left_app in H. simpl in H.
  pose proof (fold_left_shrinks f Hf l1 s) as H1.
  pose proof (Hf (fold_left f l1 s) x) as H2.
  pose proof (fold_left_shrinks f Hf l2 (f (fold_left f l1 s) x)) as H3.
  assert (A2 : agree (f (fold_left f l1 s) x) s).
  { apply (shrinks_sandwich _ _ _ H3); [|assumption].
    eapply shrinks_trans; eassumption. }
  split; [|assumption].
  apply (shrinks_sandwich _ _ _ H2 H1 A2).
Qed.

Lemma NoDup_app_disjoint {X : Type} (u t : list X) (x : X) :
  NoDup (u ++ t) -> In x u -> In x t -> False.
Proof.
  induction u as [|c u IH]; simpl; intros N Hu Ht; [contradiction|].
  inversion N; subst. destruct Hu as [->|Hu].
  - apply H1, in_or_app. now right.
  - now apply IH.
Qed.

Lemma filter_nil_none {X : Type} (f : X -> bool) (l : list X) :
  (forall x, In x l -> f x = false) -> List.filter f l = [].
Proof.
  induction l as [|x l IH]; simpl; intros H; [reflexivity|].
  rewrite (H x) by now left. apply IH. intros y Hy. apply H. now right.
Qed.

Lemma unique_place (values : board) (digit : ascii) (unit : list str) (box : str) :
  NoDup (concat (map values unit)) -> In box unit -> In digit (values box) ->
  List.filter (fun b => char_in digit (values b)) unit = [box].
Proof.
  induction unit as [|x unit IH]; simpl; intros N Hb Hd; [contradiction|].
  assert (Hrest : forall b, In b unit -> In digit (values x) -> ~ In digit (values b)).
  { intros b Hbu Hx Hdb. apply (NoDup_app_disjoint _ _ digit N Hx).
    apply in_concat. exists (values b). split; [now apply in_map | assumption]. }
  destruct (char_in digit (values x)) eqn:E.
  - apply char_in_In in E. f_equal.
    + destruct Hb as [->|Hb]; [reflexivity|]. exfalso. now apply (Hrest box).
    + apply filter_nil_none. intros b Hbu.
      destruct (char_in digit (values b)) eqn:Eb; [|reflexivity].
      apply char_in_In in Eb. exfalso. now apply (Hrest b).
  - apply IH.
    + now apply NoDup_app_remove_l in N.
    + destruct Hb as [->|Hb]; [|assumption].
      apply char_in_In in Hd. congruence.
    + assumption.
Qed.

Lemma nested_fold_fixpoint (us : list (list str)) (ds : str) (w : board)
      (unit : list str) (digit : ascii) :
  agree (fold_left (fun v u => fold_left (only_choice_digit u) ds v) us w) w ->
  In unit us -> In digit ds ->
  exists s, agree s w /\ agree (only_choice_digit unit s digit) w.
Proof.
  intros Hfix Hu Hd.
  apply in_split in Hu as (l1 & l2 & ->).
  apply in_split in Hd as (c1 & c2 & ->).
  apply (fold_left_fixpoint (fun v u => fold_left (only_choice_digit u) (c1 ++ digit :: c2) v))
    in Hfix as [A1 A2].
  - set (s1 := fold_left _ l1 w) in *.
    assert (A3 : agree (fold_left (only_choice_digit unit) (c1 ++ digit :: c2) s1) s1).
    { eapply agree_trans; [exact A2 | now apply agree_sym]. }
    apply (fold_left_fixpoint (only_choice_digit unit)
             (fun v d => only_choice_digit_shrinks unit v d)) in A3 as [B1 B2].
    exists (fold_left (only_choice_digit unit) c1 s1).
    split; eapply agree_trans; eassumption.
  - intros v u. apply fold_left_shrinks. intros v' d.
    apply only_choice_digit_shrinks.
Qed.

Lemma only_choice_fixpoint_step (w : board) (unit : list str) (digit : ascii) :
  agree (only_choice w) w -> In unit units -> In digit cols ->
  exists s, agree s w /\ agree (only_choice_digit unit s digit) w.
Proof. exact (nested_fold_fixpoint units cols w unit digit). Qed.

Lemma solved_fixpoint_cell (w : board) (unit : list str) (box : str) (digit : ascii) :
  agree (only_choice w) w -> is_solved w = true ->
  In unit units -> In box unit -> In digit (w box) ->
  In digit cols /\ w box = [digit].
Proof.
  intros Hfix Hs Hu Hb Hd.
  pose proof (is_solved_perm w unit Hs Hu) as P.
  assert (Hc : In digit cols).
  { apply (Permutation_in _ P), in_concat. exists (w box).
    split; [now apply in_map | assumption]. }
  split; [assumption|].
  destruct (only_choice_fixpoint_step w unit digit Hfix Hu Hc) as (s & As & Ad).
  assert (Hbox : In box boxes) by now apply (unit_boxes unit).
  rewrite <- (Ad box Hbox). unfold only_choice_digit.
  replace (List.filter (fun b => char_in digit (s b)) unit) with [box].
  - now rewrite set_box_same.
  - symmetry. rewrite (filter_ext_in _ (fun b => char_in digit (w b))).
    + apply unique_place; try assumption.
      apply (Permutation_NoDup (Permutation_sym P)), cols_NoDup.
    + intros b Hbu. rewrite (As b); [reflexivity|]. now apply (unit_boxes unit).
Qed.

Lemma count_le_length (v : board) (l : list str) :
  (forall c, In c l -> length (v c) <= 1) ->
  length (concat (map v l)) <= length l.
Proof.
  induction l as [|x l IH]; simpl; intros H; [lia|].
  rewrite length_app. specialize (H x (or_introl eq_refl)) as Hx.
  assert (length (concat (map v l)) <= length l) by (apply IH; auto). lia.
Qed.

Lemma count_eq_length (v : board) (l : list str) :
  (forall c, In c l -> length (v c) <= 1) ->
  length (concat (map v l)) = length l ->
  forall c, In c l -> length (v c) = 1.
Proof.
  induction l as [|x l IH]; simpl; intros H E c Hc; [contradiction|].
  rewrite length_app in E.
  pose proof (H x (or_introl eq_refl)) as Hx.
  assert (Hl : length (concat (map v l)) <= length l)
    by (apply count_le_length; auto).
  destruct Hc as [->|Hc]; [lia|].
  apply IH; auto. lia.
Qed.

Lemma solved_fixpoint_singletons (w : board) :
  agree (only_choice w) w -> is_solved w = true ->
  forall box, In box boxes -> exists digit, In digit cols /\ w box = [digit].
Proof.
  intros Hfix Hs box Hb.
  destruct (box_has_unit box Hb) as (unit & Hu & Hbu).
  assert (Hle : forall c, In c unit -> length (w c) <= 1).
  { intros c Hc. destruct (w c) as [|d rest] eqn:E; [simpl; lia|].
    assert (Hd : In d (w c)) by (rewrite E; now left).
    destruct (solved_fixpoint_cell w unit c d Hfix Hs Hu Hc Hd) as [_ E'].
    rewrite E' in E. inversion E. simpl. lia. }
  assert (Hlen : length (concat (map w unit)) = length unit).
  { rewrite (Permutation_length (is_solved_perm w unit Hs Hu)).
    now rewrite (unit_length unit Hu). }
  pose proof (count_eq_length w unit Hle Hlen box Hbu) as H1.
  destruct (w box) as [|d [|d' rest]] eqn:E; try discriminate.
  exists d. split; [|reflexivity].
  apply (solved_fixpoint_cell w unit box d Hfix Hs Hu Hbu). rewrite E. now left.
Qed.

Lemma reduce_puzzle_unfold (values : board) :
  reduce_puzzle values = naked_twins (only_choice (eliminate values)).
Proof. unfold reduce_puzzle. reflexivity. Qed.

Lemma rules_fixpoint_solved (r c e o t : board) :
  shrinks c r -> shrinks e c -> shrinks o e -> shrinks t o ->
  o = only_choice e ->
  agree t r -> is_solved r = true ->
  forall box, In box boxes -> exists digit, In digit cols /\ r box = [digit].
Proof.
  intros S0 S1 S2 S3 Eo Hfix Hs.
  assert (Se : shrinks e r) by (eapply shrinks_trans; eassumption).
  assert (Ao : agree o r).
  { apply (shrinks_sandwich _ _ _ S3); [|assumption].
    eapply shrinks_trans; eassumption. }
  assert (Ae : agree e r) by apply (shrinks_sandwich _ _ _ S2 Se Ao).
  assert (Hfe : agree (only_choice e) e).
  { rewrite <- Eo. eapply agree_trans; [exact Ao | now apply agree_sym]. }
  assert (Hse : is_solved e = true) by now rewrite (is_solved_ext e r Ae).
  intros box Hb. rewrite <- (Ae box Hb).
  now apply solved_fixpoint_singletons.
Qed.

Lemma pass_fixpoint_solved (r : board) :
  agree (reduce_puzzle (copy r)) r -> is_solved r = true ->
  forall box, In box boxes -> exists digit, In digit cols /\ r box = [digit].
Proof.
  rewrite reduce_puzzle_unfold. intros Hfix Hs.
  apply (rules_fixpoint_solved r (copy r) (eliminate (copy r))
           (only_choice (eliminate (copy r)))
           (naked_twins (only_choice (eliminate (copy r))))).
  - apply copy_shrinks.
  - apply eliminate_shrinks.
  - apply only_choice_shrinks.
  - apply naked_twins_shrinks.
  - reflexivity.
  - exact Hfix.
  - exact Hs.
Qed.



Lemma search_result_units_valid_witness :
  sorted (concat (map (grid_values solved_grid) (cross (lit "A") cols))) = lit "123456789" /\
  Permutation (concat (map (grid_values solved_grid) (cross (lit "A") cols))) cols /\
  NoDup (concat (map (grid_values solved_grid) (cross (lit "A") cols))) /\
  length (concat (map (grid_values solved_grid) (cross (lit "A") cols))) = 9.
Proof.
  apply (search_result_units_valid length_hash 1 (grid_values solved_grid)).
  - left. vm_compute. reflexivity.
  - left. reflexivity.
Defined.


(** ** Choosing the box to branch on *)

Lemma min_by_le {X : Type} (key : X -> nat) (l : list X) :
  forall best x, In x (best :: l) -> key (min_by key best l) <= key x.
Proof.
  induction l as [|y l IH]; intros best x Hx; simpl.
  - destruct Hx as [->|[]]. lia.
  - destruct (key y <? key best) eqn:E.
    + apply Nat.ltb_lt in E. destruct Hx as [->|[->|Hx]].
      * pose proof (IH y y (or_introl eq_refl)). lia.
      * apply IH. now left.
      * apply IH. now right.
    + apply Nat.ltb_ge in E. destruct Hx as [->|[->|Hx]].
      * apply IH. now left.
      * pose proof (IH best best (or_introl eq_refl)). lia.
      * apply IH. now right.
Qed.

Lemma min_by_first {X : Type} (key : X -> nat) (l : list X) :
  forall best, exists l1 l2,
    best :: l = l1 ++ min_by key best l :: l2 /\
    forall x, In x l1 -> key (min_by key best l) < key x.
Proof.
  induction l as [|y l IH]; intros best; simpl.
  - exists [], []. split; [reflexivity | intros x []].
  - destruct (key y <? key best) eqn:E.
    + apply Nat.ltb_lt in E.
      destruct (IH y) as (l1 & l2 & Heq & Hlt).
      exists (best :: l1), l2. split; [simpl; now rewrite Heq|].
      intros x [->|Hx]; [|now apply Hlt].
      pose proof (min_by_le key l y y (or_introl eq_refl)). lia.
    + apply Nat.ltb_ge in E.
      destruct (IH best) as (l1 & l2 & Heq & Hlt).
      destruct l1 as [|b l1]; simpl in Heq; injection Heq as Hb Hl.
      * exists [], (y :: l). split; [simpl; f_equal; exact Hb | intros x []].
      * subst b. exists (best :: y :: l1), l2.
        split; [simpl; do 2 f_equal; exact Hl|].
        intros x [->|[->|Hx]].
        -- apply Hlt. now left.
        -- pose proof (Hlt best (or_introl eq_refl)). lia.
        -- apply Hlt. now right.
Qed.

Lemma min_of_list_spec (key : str -> nat) (bs : list str) :
  bs <> [] ->
  exists l1 l2,
    bs = l1 ++ match bs with [] => [] | box :: l => min_by key box l end :: l2 /\
    (forall x, In x l1 ->
       key match bs with [] => [] | box :: l => min_by key box l end < key x) /\
    (forall x, In x bs ->
       key match bs with [] => [] | box :: l => min_by key box l end <= key x).
Proof.
  destruct bs as [|box l]; intros H; [congruence|].
  destruct (min_by_first key l box) as (l1 & l2 & Heq & Hlt).
  exists l1, l2. repeat split; try assumption.
  intros x Hx. now apply min_by_le.
Qed.

Lemma find_smallest_box_spec (values : board) :
  exists l1 l2,
    boxes = l1 ++ find_smallest_box values :: l2 /\
    (forall x, In x l1 -> box_key values (find_smallest_box values) < box_key values x) /\
    (forall x, In x boxes -> box_key values (find_smallest_box values) <= box_key values x).
Proof.
  apply (min_of_list_spec (box_key values) boxes). discriminate.
Qed.

Lemma find_smallest_box_In (values : board) : In (find_smallest_box values) boxes.
Proof.
  destruct (find_smallest_box_spec values) as (l1 & l2 & Heq & _).
  rewrite Heq at 1. apply in_elt.
Qed.

Lemma find_smallest_box_empty (values : board) :
  (exists box, In box boxes /\ values box = []) ->
  values (find_smallest_box values) = [].
Proof.
  intros (box & Hb & E).
  destruct (find_smallest_box_spec values) as (l1 & l2 & _ & _ & Hle).
  specialize (Hle box Hb). unfold box_key in Hle. rewrite E in Hle. simpl in Hle.
  destruct (length (values (find_smallest_box values)) =? 1) eqn:E1; [lia|].
  apply length_zero_iff_nil. lia.
Qed.

Lemma empty_cell_branch (rec : board -> option result) (values : board) :
  (exists box, In box boxes /\ values box = []) ->
  is_searchable values = true ->
  search_branch rec values = Some ReturnNone.
Proof.
  intros Hempty Hs. unfold search_branch.
  rewrite Hs, (find_smallest_box_empty values Hempty). reflexivity.
Qed.

(** C10 -- A board with an empty candidate string and more than 81
    characters in all: [is_searchable] is true (the dead check does not catch
    the contradiction); [find_smallest_box] picks a box with the empty
    string, whose key 0 is below the key of every solved box (10) and of
    every box with several candidates; and [search], from the dead check on,
    returns [None] without calling itself: whatever the recursive call is,
    and so with fuel for no call at all when such a board leaves the loop
    unsolved. *)
Theorem empty_cell_returns_none (values : board) :
  (exists box, In box boxes /\ values box = []) ->
  81 < candidate_count values ->
  is_searchable values = true /\
  In (find_smallest_box values) boxes /\
  values (find_smallest_box values) = [] /\
  box_key values (find_smallest_box values) = 0 /\
  (forall box, length (values box) = 1 -> box_key values box = 10) /\
  (forall box, 1 < length (values box) ->
     box_key values (find_smallest_box values) < box_key values box) /\
  (forall rec, search_branch rec values = Some ReturnNone) /\
  (forall hash input, reduce_loop hash (S (candidate_count input)) input = Some values ->
     is_solved values = false -> search hash 1 input = Some ReturnNone).
Proof.
  intros Hempty Hcount.
  pose proof (find_smallest_box_empty values Hempty) as E.
  assert (Hs : is_searchable values = true) by now apply Nat.ltb_lt.
  assert (Hk : box_key values (find_smallest_box values) = 0)
    by (unfold box_key; now rewrite E).
  assert (Hb : forall rec, search_branch rec values = Some ReturnNone).
  { intros rec. unfold search_branch. rewrite Hs, E. reflexivity. }
  repeat split; try assumption.
  - apply find_smallest_box_In.
  - intros box H. unfold box_key. now rewrite H.
  - intros box H. rewrite Hk. unfold box_key.
    destruct (length (values box) =? 1); lia.
  - intros hash input L Hns. cbn [search]. rewrite L, Hns. apply Hb.
Qed.

Lemma empty_cell_returns_none_witness :
  let values := set_box (grid_values empty_grid) (lit "A1") [] in
  is_searchable values = true /\
  In (find_smallest_box values) boxes /\
  values (find_smallest_box values) = [] /\
  box_key values (find_smallest_box values) = 0 /\
  (forall box, length (values box) = 1 -> box_key values box = 10) /\
  (forall box, 1 < length (values box) ->
     box_key values (find_smallest_box values) < box_key values box) /\
  (forall rec, search_branch rec values = Some ReturnNone) /\
  (forall hash input, reduce_loop hash (S (candidate_count input)) input = Some values ->
     is_solved values = false -> search hash 1 input = Some ReturnNone).
Proof.
  apply (empty_cell_returns_none (set_box (grid_values empty_grid) (lit "A1") [])).
  - exists (lit "A1"). split; [|reflexivity].
    apply box_in_In. vm_compute. reflexivity.
  - apply Nat.ltb_lt. vm_compute. reflexivity.
Defined.

(** ** Failure results *)

Lemma set_box_twice (values : board) (box : str) (v1 v2 : str) :
  copy (set_box (set_box values box v1) box v2) = copy (set_box values box v2).
Proof.
  apply copy_ext. intros k _. unfold set_box. now destruct (str_eqb k box).
Qed.

Lemma try_guesses_first_success (rec : board -> option result) (box : str) :
  forall guesses values,
    try_guesses rec values box guesses
    = first_success (map (fun guess => rec (copy (set_box values box [guess]))) guesses).
Proof.
  induction guesses as [|g guesses IH]; intros values; simpl; [reflexivity|].
  destruct (rec (copy (set_box values box [g]))) as [r|]; [|reflexivity].
  destruct (truthy r); [reflexivity|].
  rewrite IH. apply (f_equal first_success). apply map_ext. intros g'.
  apply (f_equal rec). apply set_box_twice.
Qed.

Lemma first_success_all_fail (results : list (option result)) :
  (forall x, In x results -> exists r, x = Some r /\ truthy r = false) ->
  first_success results = Some ReturnNone.
Proof.
  induction results as [|x results IH]; simpl; intros H; [reflexivity|].
  destruct (H x (or_introl eq_refl)) as (r & -> & T). rewrite T.
  apply IH. intros y Hy. apply H. now right.
Qed.

(** C6 -- Failure signalling: when the board left by the loop is not solved
    and is not searchable, [search] returns [False]; when it is not solved
    and has a box without candidates, [search] returns [False] or [None];
    when every branch of the chosen box fails, [search] returns [None].
    [False] and [None] are not boards, and [solve] returns what [search]
    returns. *)
Theorem search_failure_signal (hash : list str -> Z) (fuel : nat) (values v : board) :
  reduce_loop hash (S (candidate_count values)) values = Some v ->
  is_solved v = false ->
  (is_searchable v = false -> search hash (S fuel) values = Some ReturnFalse) /\
  ((exists box, In box boxes /\ v box = []) ->
     search hash (S fuel) values = Some ReturnFalse \/
     search hash (S fuel) values = Some ReturnNone) /\
  (is_searchable v = true ->
   (forall guess, In guess (v (find_smallest_box v)) ->
      exists r, search hash fuel (copy (set_box v (find_smallest_box v) [guess])) = Some r
                /\ truthy r = false) ->
     search hash (S fuel) values = Some ReturnNone) /\
  (forall b, ReturnFalse <> Solved b /\ ReturnNone <> Solved b) /\
  (forall grid, grid_values grid = values ->
     solve hash (S fuel) grid = search hash (S fuel) values).
Proof.
  intros L Hns.
  assert (Hstep : search hash (S fuel) values = search_branch (search hash fuel) v).
  { cbn [search]. now rewrite L, Hns. }
  split; [|split; [|split; [|split]]].
  - intros Hd. rewrite Hstep. unfold search_branch. now rewrite Hd.
  - intros Hempty. rewrite Hstep.
    destruct (is_searchable v) eqn:Hd.
    + right. apply empty_cell_branch; assumption.
    + left. unfold search_branch. now rewrite Hd.
  - intros Hd Hfail. rewrite Hstep. unfold search_branch. rewrite Hd.
    cbn [negb]. rewrite try_guesses_first_success. apply first_success_all_fail.
    intros x Hx. apply in_map_iff in Hx as (g & <- & Hg). now apply Hfail.
  - intros b. split; intros H; inversion H.
  - intros grid <-. reflexivity.
Qed.

Lemma search_failure_signal_witness :
  (is_searchable dead_board = false ->
     search length_hash 1 dead_board = Some ReturnFalse) /\
  ((exists box, In box boxes /\ dead_board box = []) ->
     search length_hash 1 dead_board = Some ReturnFalse \/
     search length_hash 1 dead_board = Some ReturnNone) /\
  (is_searchable dead_board = true ->
   (forall guess, In guess (dead_board (find_smallest_box dead_board)) ->
      exists r, search length_hash 0
                  (copy (set_box dead_board (find_smallest_box dead_board) [guess])) = Some r
                /\ truthy r = false) ->
     search length_hash 1 dead_board = Some ReturnNone) /\
  (forall b, ReturnFalse <> Solved b /\ ReturnNone <> Solved b) /\
  (forall grid, grid_values grid = dead_board ->
     solve length_hash 1 grid = search length_hash 1 dead_board).
Proof.
  apply (search_failure_signal length_hash 0 dead_board dead_board).
  - vm_compute. reflexivity.
  - vm_compute. reflexivity.
Defined.

(** ** Well-formed candidate strings *)




Lemma dict_of_Forall (P : str -> Prop) (items : list (str * str)) (k : str) :
  P [] -> (forall kv, In kv items -> P (snd kv)) -> P (dict_of items k).
Proof.
  intros Hnil. unfold dict_of. induction items as [|kv items IH]; intros H.
  - exact Hnil.
  - cbn [find]. destruct (str_eqb (fst kv) k).
    + apply H. now left.
    + apply IH. intros kv' Hkv. apply H. now right.
Qed.

(** A grid of digits and dots gives candidate strings that are "123456789"
    with some digits deleted. *)
Lemma grid_values_subseq (grid : str) (box : str) :
  (forall c, In c grid -> c = "."%char \/ In c cols) ->
  subseq (grid_values grid box) cols.
Proof.
  intros Hg. unfold grid_values. apply dict_of_Forall.
  - apply subseq_nil_l.
  - intros kv Hkv. apply in_map_iff in Hkv as ([b val] & <- & Hin).
    apply in_combine_r in Hin. cbn [snd].
    destruct (Ascii.eqb val ".") eqn:E; [apply subseq_refl|].
    apply subseq_single. destruct (Hg val Hin) as [->|H]; [|assumption].
    rewrite Ascii.eqb_refl in E. discriminate.
Qed.

Lemma searchable_has_unsolved (v : board) (l : list str) :
  length l < length (concat (map v l)) ->
  exists c, In c l /\ 2 <= length (v c).
Proof.
  induction l as [|x l IH]; cbn [map concat length]; intros H; [lia|].
  rewrite length_app in H.
  destruct (le_lt_dec 2 (length (v x))) as [Hx|Hx].
  - exists x. split; [now left | assumption].
  - destruct IH as (c & Hc & Hlen); [lia|].
    exists c. split; [now right | assumption].
Qed.

(** ** The hash test of the loop *)

Lemma boxes_NoDup : NoDup boxes.
Proof.
  assert (E : dedup boxes = boxes) by (vm_compute; reflexivity).
  rewrite <- E. apply dedup_NoDup.
Qed.

Lemma index_of_nth (l : list str) :
  NoDup l -> forall i, i < length l -> index_of (nth i l []) l = Some i.
Proof.
  induction 1 as [|x l Hx N IH]; intros i Hi; cbn [length] in Hi; [lia|].
  destruct i as [|i]; cbn [nth index_of].
  - now rewrite str_eqb_refl.
  - assert (Hneq : str_eqb x (nth i l []) = false).
    { apply str_eqb_neq. intros ->. apply Hx, nth_In. lia. }
    rewrite Hneq, IH by lia. reflexivity.
Qed.

Lemma testbit_high (n i : N) :
  (n < 2 ^ 81)%N -> (81 <= i)%N -> N.testbit n i = false.
Proof.
  intros Hn Hi. destruct (N.eq_dec n 0) as [->|Hz]; [apply N.bits_0|].
  apply N.bits_above_log2.
  assert (H : (N.log2 n < 81)%N) by (apply N.log2_lt_pow2; [lia | assumption]).
  lia.
Qed.

Lemma bits_board_inj (n m : N) :
  (n < 2 ^ 81)%N -> (m < 2 ^ 81)%N ->
  agree (bits_board n) (bits_board m) -> n = m.
Proof.
  intros Hn Hm A. apply N.bits_inj. intros i.
  destruct (N.lt_ge_cases i 81) as [Hi|Hi].
  - assert (Hk : N.to_nat i < length boxes) by (rewrite boxes_length; lia).
    pose proof (A (nth (N.to_nat i) boxes []) (nth_In _ _ Hk)) as E.
    unfold bits_board in E.
    rewrite (index_of_nth boxes boxes_NoDup _ Hk), N2Nat.id in E.
    destruct (N.testbit n i), (N.testbit m i); try reflexivity;
      unfold lit in E; cbn [list_ascii_of_string] in E; inversion E.
  - now rewrite !testbit_high.
Qed.

Lemma no_injection_into_range (M : nat) (lo : Z) (f : nat -> Z) :
  (forall i j, i <= M -> j <= M -> f i = f j -> i = j) ->
  (forall i, i <= M -> (lo <= f i < lo + Z.of_nat M)%Z) ->
  False.
Proof.
  intros Hinj Hrange.
  assert (Hnd : NoDup (map f (seq 0 (S M)))).
  { apply NoDup_map_NoDup_ForallPairs; [|apply seq_NoDup].
    intros i j Hi Hj. apply in_seq in Hi, Hj. apply Hinj; lia. }
  assert (Hincl : incl (map f (seq 0 (S M)))
                       (map (fun k => (lo + Z.of_nat k)%Z) (seq 0 M))).
  { intros z Hz. apply in_map_iff in Hz as (i & <- & Hi). apply in_seq in Hi.
    apply in_map_iff. exists (Z.to_nat (f i - lo)).
    specialize (Hrange i ltac:(lia)). split; [lia|]. apply in_seq. lia. }
  pose proof (NoDup_incl_length Hnd Hincl) as Hlen.
  rewrite !length_map, !length_seq in Hlen. lia.
Qed.

(** C8, as stated, fails: the hash of a tuple is an integer of [-2^63, 2^63),
    and whatever function into that range it is, two boards with different
    candidate strings (already among those holding "1" or "2" in each box)
    get the same hash, so [is_same] calls them the same. *)
Lemma is_same_not_structural :
  ~ exists hash : list str -> Z,
      (forall t, (- 2 ^ 63 <= hash t < 2 ^ 63)%Z) /\
      forall before after : board,
        is_same hash before after = true <-> agree before after.
Proof.
  intros (hash & Hrange & Hiff).
  set (M := Z.to_nat 18446744073709551616).
  apply (no_injection_into_range M (- 2 ^ 63)%Z
           (fun i => hash (tuple (bits_board (N.of_nat i))))).
  - intros i j Hi Hj E.
    assert (Hs : is_same hash (bits_board (N.of_nat i)) (bits_board (N.of_nat j)) = true).
    { unfold is_same. rewrite E. apply Z.eqb_refl. }
    apply Hiff in Hs. apply bits_board_inj in Hs.
    + now apply Nat2N.inj.
    + change (2 ^ 81)%N with 2417851639229258349412352%N. unfold M in Hi. lia.
    + change (2 ^ 81)%N with 2417851639229258349412352%N. unfold M in Hj. lia.
  - intros i _. specialize (Hrange (tuple (bits_board (N.of_nat i)))).
    unfold M. rewrite Z2Nat.id by lia.
    change (2 ^ 63)%Z with 9223372036854775808%Z in *. lia.
Qed.

(** C8, amended -- [is_same] is true whenever the two boards have equal
    candidate strings in every box (it can also be true for two boards that
    differ, on a collision of the hash); so the loop of [search] stops no
    later than the first pass that leaves the board unchanged. *)
Theorem is_same_of_equal_boards (hash : list str -> Z) (passes : nat)
        (before after : board) :
  agree before after ->
  is_same hash before after = true /\
  (after = reduce_puzzle (copy before) ->
   reduce_loop hash (S passes) before = Some before).
Proof.
  intros A. split; [now apply is_same_agree|].
  intros ->. apply reduce_loop_fixpoint. now apply agree_sym.
Qed.

Lemma is_same_of_equal_boards_witness :
  is_same length_hash (grid_values solved_grid)
          (set_box (grid_values solved_grid) (lit "A1") (lit "2")) = true /\
  (set_box (grid_values solved_grid) (lit "A1") (lit "2")
   = reduce_puzzle (copy (grid_values solved_grid)) ->
   reduce_loop length_hash 1 (grid_values solved_grid) = Some (grid_values solved_grid)).
Proof.
  apply (is_same_of_equal_boards length_hash 0).
  intros box _. unfold set_box. destruct (str_eqb box (lit "A1")) eqn:E.
  - apply str_eqb_eq in E. subst box. vm_compute. reflexivity.
  - reflexivity.
Defined.

(** ** Naked twins *)

Lemma nodupb_NoDup (l : list str) : nodupb l = true -> NoDup l.
Proof.
  induction l as [|x l IH]; cbn [nodupb]; intros H; [constructor|].
  apply andb_true_iff in H as [Hx Hl]. constructor; [|now apply IH].
  intros Hin. apply box_in_In in Hin. rewrite Hin in Hx. discriminate.
Qed.

Lemma units_nodupb : forallb nodupb units = true.
Proof. vm_compute. reflexivity. Qed.

Lemma unit_NoDup (unit : list str) : In unit units -> NoDup unit.
Proof.
  intros Hu. apply nodupb_NoDup.
  apply (proj1 (forallb_forall _ _) units_nodupb). exact Hu.
Qed.

Lemma holders_app (values : board) (p q : list str) (s : str) :
  holders values (p ++ q) s = holders values p s ++ holders values q s.
Proof. unfold holders. apply filter_app. Qed.

Lemma get_count_incr (d : list (str * nat)) (val k : str) :
  get_count (incr d val) k
  = if str_eqb val k
    then Some (S (match get_count d k with Some n => n | None => 0 end))
    else get_count d k.
Proof.
  induction d as [|[k' n] d IH]; cbn [incr get_count].
  - destruct (str_eqb val k); reflexivity.
  - destruct (str_eqb k' val) eqn:E1; cbn [get_count].
    + apply str_eqb_eq in E1. subst k'.
      destruct (str_eqb val k); reflexivity.
    + destruct (str_eqb k' k) eqn:E2.
      * apply str_eqb_eq in E2. subst k'.
        assert (E3 : str_eqb val k = false).
        { apply str_eqb_neq. intros ->. rewrite str_eqb_refl in E1. discriminate. }
        now rewrite E3.
      * exact IH.
Qed.

Lemma incr_keys (d : list (str * nat)) (val k : str) :
  In k (map fst (incr d val)) <-> k = val \/ In k (map fst d).
Proof.
  induction d as [|[k' n] d IH]; cbn [incr map fst In].
  - intuition congruence.
  - destruct (str_eqb k' val) eqn:E; cbn [map fst In].
    + apply str_eqb_eq in E. subst k'. intuition congruence.
    + rewrite IH. tauto.
Qed.

Lemma incr_NoDup (d : list (str * nat)) (val : str) :
  NoDup (map fst d) -> NoDup (map fst (incr d val)).
Proof.
  induction d as [|[k' n] d IH]; cbn [incr map fst]; intros H.
  - constructor; [intros [] | constructor].
  - inversion H as [|x l Hx Hl]; subst.
    destruct (str_eqb k' val) eqn:E; cbn [map fst].
    + constructor; assumption.
    + constructor; [|now apply IH].
      rewrite incr_keys. intros [->|Hin]; [|contradiction].
      rewrite str_eqb_refl in E. discriminate.
Qed.

Lemma get_count_In (d : list (str * nat)) (k : str) (n : nat) :
  NoDup (map fst d) -> In (k, n) d -> get_count d k = Some n.
Proof.
  induction d as [|[k' m] d IH]; cbn [map fst get_count]; intros N H; [contradiction|].
  inversion N as [|x l Hx Hl]; subst. destruct H as [H|H].
  - inversion H; subst. now rewrite str_eqb_refl.
  - destruct (str_eqb k' k) eqn:E; [|now apply IH].
    apply str_eqb_eq in E. subst k'. exfalso. apply Hx.
    apply in_map_iff. now exists (k, n).
Qed.

Lemma get_count_Some (d : list (str * nat)) (k : str) (n : nat) :
  get_count d k = Some n -> In (k, n) d.
Proof.
  induction d as [|[k' m] d IH]; cbn [get_count]; intros H; [discriminate|].
  destruct (str_eqb k' k) eqn:E.
  - apply str_eqb_eq in E. inversion H; subst. now left.
  - right. now apply IH.
Qed.

Lemma counts_step (values : board) (seen : list str) (d : list (str * nat)) (box : str) :
  counts values seen d ->
  counts values (seen ++ [box])
         (if length (values box) =? 2 then incr d (values box) else d).
Proof.
  intros [N H]. split.
  - destruct (length (values box) =? 2); [now apply incr_NoDup | assumption].
  - intros k. rewrite holders_app, length_app. unfold holders at 2 4.
    cbn [List.filter]. specialize (H k).
    destruct (length (values box) =? 2) eqn:E2.
    + rewrite get_count_incr. destruct (str_eqb (values box) k) eqn:Ek.
      * apply str_eqb_eq in Ek. subst k. rewrite E2 in *. cbn [length andb] in *.
        rewrite H. destruct (0 <? length (holders values seen (values box))) eqn:E0.
        -- replace (0 <? _ + 1) with true by (symmetry; apply Nat.ltb_lt; lia).
           f_equal. lia.
        -- apply Nat.ltb_ge in E0.
           replace (0 <? _ + 1) with true by (symmetry; apply Nat.ltb_lt; lia).
           f_equal. lia.
      * cbn [length]. rewrite Nat.add_0_r. exact H.
    + destruct (str_eqb (values box) k) eqn:Ek.
      * apply str_eqb_eq in Ek. subst k. rewrite E2 in *. cbn [andb] in *. exact H.
      * cbn [length]. rewrite Nat.add_0_r. exact H.
Qed.

Lemma counts_fold (values : board) (l : list str) :
  forall seen d, counts values seen d ->
  counts values (seen ++ l)
         (fold_left (fun d box =>
                       let val := values box in
                       if length val =? 2 then incr d val else d) l d).
Proof.
  induction l as [|box l IH]; intros seen d H; cbn [fold_left].
  - now rewrite app_nil_r.
  - replace (seen ++ box :: l) with ((seen ++ [box]) ++ l)
      by (rewrite <- app_assoc; reflexivity).
    apply IH. now apply counts_step.
Qed.

Lemma count_pairs_counts (values : board) (unit : list str) :
  counts values unit (count_pairs values unit).
Proof.
  unfold count_pairs. apply (counts_fold values unit [] []).
  split; [constructor|]. intros k. cbn. now rewrite andb_false_r.
Qed.

Lemma count_pairs_item (values : board) (unit : list str) (k : str) (n : nat) :
  In (k, n) (count_pairs values unit) ->
  length k = 2 /\ n = length (holders values unit k).
Proof.
  intros H. destruct (count_pairs_counts values unit) as [N C].
  apply (get_count_In _ _ _ N) in H. rewrite C in H.
  destruct (length k =? 2) eqn:E2; [|discriminate].
  destruct (0 <? length (holders values unit k)); [|discriminate].
  apply Nat.eqb_eq in E2. inversion H. split; [assumption | reflexivity].
Qed.

Lemma count_pairs_has (values : board) (unit : list str) (k : str) :
  length k = 2 -> 0 < length (holders values unit k) ->
  In (k, length (holders values unit k)) (count_pairs values unit).
Proof.
  intros H2 H0. destruct (count_pairs_counts values unit) as [N C].
  apply get_count_Some. rewrite C.
  apply Nat.eqb_eq in H2. apply Nat.ltb_lt in H0. now rewrite H2, H0.
Qed.

Lemma twins_sweep_spec (a b : ascii) (unit : list str) :
  NoDup unit ->
  forall values box,
    twins_sweep unit a b values box
    = if box_in box unit && negb (str_eqb (values box) ([a] ++ [b]))
      then re_sub_pair a b (values box) else values box.
Proof.
  unfold twins_sweep.
  induction 1 as [|x unit Hx N IH]; intros values box; cbn [fold_left].
  - reflexivity.
  - rewrite IH. cbn [box_in existsb].
    destruct (str_eqb box x) eqn:Ebx.
    + apply str_eqb_eq in Ebx. subst x.
      assert (Hnot : existsb (str_eqb box) unit = false).
      { destruct (existsb (str_eqb box) unit) eqn:E; [|reflexivity].
        apply (box_in_In box unit) in E. contradiction. }
      unfold box_in. rewrite Hnot. cbn [andb orb].
      destruct (negb (str_eqb (values box) ([a] ++ [b]))); [|reflexivity].
      apply set_box_same.
    + cbn [orb]. fold (box_in box unit).
      destruct (negb (str_eqb (values x) ([a] ++ [b]))); [|reflexivity].
      rewrite !(set_box_other values x box) by (now apply str_eqb_neq).
      reflexivity.
Qed.

Lemma twins_item_skip (unit : list str) (values : board) (k : str) (n : nat) :
  n <> 2 -> twins_item unit values (k, n) = values.
Proof.
  intros H. apply Nat.eqb_neq in H. unfold twins_item.
  destruct k as [|a [|b [|c k]]]; try reflexivity. now rewrite H.
Qed.

Lemma fold_items_skip (unit : list str) (items : list (str * nat)) :
  (forall k n, In (k, n) items -> n <> 2) ->
  forall values, fold_left (twins_item unit) items values = values.
Proof.
  induction items as [|[k n] items IH]; intros H values; cbn [fold_left].
  - reflexivity.
  - rewrite (twins_item_skip unit values k n) by (apply (H k n); now left).
    apply IH. intros k' n' Hin. apply (H k' n'). now right.
Qed.

Lemma fold_items_single (unit : list str) (a b : ascii) (items : list (str * nat)) :
  NoDup (map fst items) ->
  In ([a] ++ [b], 2) items ->
  (forall k n, In (k, n) items -> k <> [a] ++ [b] -> n <> 2) ->
  forall values, fold_left (twins_item unit) items values = twins_sweep unit a b values.
Proof.
  induction items as [|[k n] items IH]; intros N Hin Hskip values; [contradiction|].
  cbn [map fst] in N. inversion N as [|x l Hx Hl]; subst. cbn [fold_left].
  destruct Hin as [Hin|Hin].
  - inversion Hin; subst. cbn [twins_item app Nat.eqb].
    apply fold_items_skip. intros k' n' Hk'. apply (Hskip k' n'); [now right|].
    intros ->. apply Hx. apply in_map_iff. now exists ([a] ++ [b], n').
  - assert (Hk : k <> [a] ++ [b]).
    { intros ->. apply Hx. apply in_map_iff. now exists ([a] ++ [b], 2). }
    rewrite (twins_item_skip unit values k n)
      by (apply (Hskip k n); [now left | assumption]).
    apply IH; try assumption.
    intros k' n' Hk'. apply (Hskip k' n'). now right.
Qed.

Lemma re_sub_pair_keeps (a b d : ascii) (s : str) :
  In d s -> ~ In d (re_sub_pair a b s) -> d = a \/ d = b.
Proof.
  intros Hd Hn. unfold re_sub_pair in Hn.
  destruct (Ascii.eqb d a) eqn:Ea; [left; now apply Ascii.eqb_eq|].
  destruct (Ascii.eqb d b) eqn:Eb; [right; now apply Ascii.eqb_eq|].
  exfalso. apply Hn. apply filter_In. split; [assumption|].
  now rewrite Ea, Eb.
Qed.

Lemma twins_sweep_removes (a b d : ascii) (unit : list str) (box : str) :
  forall values,
    In d (values box) -> ~ In d (twins_sweep unit a b values box) ->
    In box unit /\ (d = a \/ d = b).
Proof.
  unfold twins_sweep. induction unit as [|x unit IH]; intros values Hd Hn;
    cbn [fold_left] in Hn; [contradiction|].
  set (v' := if negb (str_eqb (values x) ([a] ++ [b]))
             then set_box values x (re_sub_pair a b (values x)) else values) in *.
  destruct (in_dec ascii_dec d (v' box)) as [Hin|Hout].
  - destruct (IH v' Hin Hn) as [Hb Hab]. split; [now right | assumption].
  - unfold v' in Hout. destruct (negb (str_eqb (values x) ([a] ++ [b])));
      [|contradiction].
    unfold set_box in Hout. destruct (str_eqb box x) eqn:E; [|contradiction].
    apply str_eqb_eq in E. subst x. split; [now left|].
    now apply (re_sub_pair_keeps a b d (values box)).
Qed.

Lemma fold_items_removes (unit : list str) (d : ascii) (box : str)
      (items : list (str * nat)) :
  forall values,
    In d (values box) -> ~ In d (fold_left (twins_item unit) items values box) ->
    In box unit /\ exists a b, In ([a] ++ [b], 2) items /\ (d = a \/ d = b).
Proof.
  induction items as [|[k n] items IH]; intros values Hd Hn; cbn [fold_left] in Hn;
    [contradiction|].
  destruct (in_dec ascii_dec d (twins_item unit values (k, n) box)) as [Hin|Hout].
  - destruct (IH _ Hin Hn) as (Hb & a & b & Hab & Hd').
    split; [assumption|]. exists a, b. split; [now right | assumption].
  - unfold twins_item in Hout.
    destruct k as [|a [|b [|c k]]]; try contradiction.
    destruct (n =? 2) eqn:E; [|contradiction]. apply Nat.eqb_eq in E. subst n.
    destruct (twins_sweep_removes a b d unit box values Hd Hout) as [Hb Hab].
    split; [assumption|]. exists a, b. split; [now left | assumption].
Qed.

Lemma naked_twins_unit_single (values : board) (unit : list str) (a b : ascii) :
  length (holders values unit ([a] ++ [b])) = 2 ->
  (forall s, s <> [a] ++ [b] -> length s = 2 -> length (holders values unit s) <> 2) ->
  naked_twins_unit values unit = twins_sweep unit a b values.
Proof.
  intros H2 Huniq. unfold naked_twins_unit.
  apply fold_items_single.
  - apply (count_pairs_counts values unit).
  - rewrite <- H2. apply count_pairs_has; [reflexivity | lia].
  - intros k n Hin Hk. apply count_pairs_item in Hin as [Hlen ->].
    now apply Huniq.
Qed.

Lemma fold_items_cell (unit : list str) :
  NoDup unit ->
  forall items v c,
    fold_left (twins_item unit) items v c
    = if box_in c unit
      then fold_left sweep_cell
             (map fst (List.filter (fun item => snd item =? 2) items)) (v c)
      else v c.
Proof.
  intros N. induction items as [|[k n] items IH]; intros v c; cbn [fold_left].
  - cbn [List.filter map fold_left]. now destruct (box_in c unit).
  - rewrite IH. cbn [List.filter snd].
    destruct (n =? 2) eqn:En.
    + apply Nat.eqb_eq in En. subst n. cbn [map fst fold_left].
      destruct k as [|a [|b [|x k]]]; cbn [twins_item sweep_cell]; try reflexivity.
      cbn [Nat.eqb]. rewrite (twins_sweep_spec a b unit N v c).
      destruct (box_in c unit); reflexivity.
    + apply Nat.eqb_neq in En. rewrite (twins_item_skip unit v k n En). reflexivity.
Qed.

Lemma naked_twins_unit_exact (values : board) (unit : list str) (box : str) :
  NoDup unit ->
  naked_twins_unit values unit box
  = if box_in box unit
    then fold_left sweep_cell (twin_strings values unit) (values box)
    else values box.
Proof. intros N. unfold naked_twins_unit, twin_strings. now apply fold_items_cell. Qed.

Lemma twin_strings_spec (values : board) (unit : list str) (s : str) :
  In s (twin_strings values unit) <->
  length s = 2 /\ length (holders values unit s) = 2.
Proof.
  unfold twin_strings. rewrite in_map_iff. split.
  - intros ([k n] & <- & Hin). cbn [fst]. apply filter_In in Hin as [Hin Hn].
    cbn [snd] in Hn. apply Nat.eqb_eq in Hn. subst n.
    apply count_pairs_item in Hin as [Hlen Hc]. split; [assumption | now symmetry].
  - intros [Hlen H2]. exists (s, 2). split; [reflexivity|].
    apply filter_In. split; [|reflexivity].
    rewrite <- H2. apply count_pairs_has; [assumption | lia].
Qed.

Lemma sweep_cell_subseq (cur s : str) : subseq (sweep_cell cur s) cur.
Proof.
  unfold sweep_cell. destruct s as [|a [|b [|x s]]]; try apply subseq_refl.
  destruct (negb _); [apply subseq_filter | apply subseq_refl].
Qed.

Lemma fold_sweep_subseq (T : list str) :
  forall cur, subseq (fold_left sweep_cell T cur) cur.
Proof.
  induction T as [|s T IH]; intros cur; cbn [fold_left]; [apply subseq_refl|].
  eapply subseq_trans; [apply IH | apply sweep_cell_subseq].
Qed.

Lemma sweep_cell_keep (a b : ascii) (s : str) :
  s = [a] ++ [b] \/ (length s = 2 /\ ~ In a s /\ ~ In b s) ->
  sweep_cell ([a] ++ [b]) s = [a] ++ [b].
Proof.
  intros [->|(Hlen & Ha & Hb)].
  - cbn [sweep_cell app]. now rewrite str_eqb_refl.
  - destruct s as [|x [|y [|z s]]]; try discriminate.
    cbn [sweep_cell]. destruct (negb _); [|reflexivity].
    cbn [app re_sub_pair List.filter].
    assert (Eax : Ascii.eqb a x = false)
      by (apply Ascii.eqb_neq; intros ->; apply Ha; now left).
    assert (Eay : Ascii.eqb a y = false)
      by (apply Ascii.eqb_neq; intros ->; apply Ha; right; now left).
    assert (Ebx : Ascii.eqb b x = false)
      by (apply Ascii.eqb_neq; intros ->; apply Hb; now left).
    assert (Eby : Ascii.eqb b y = false)
      by (apply Ascii.eqb_neq; intros ->; apply Hb; right; now left).
    now rewrite Eax, Eay, Ebx, Eby.
Qed.

Lemma fold_sweep_keep (a b : ascii) (T : list str) :
  (forall s, In s T -> s = [a] ++ [b] \/ (length s = 2 /\ ~ In a s /\ ~ In b s)) ->
  fold_left sweep_cell T ([a] ++ [b]) = [a] ++ [b].
Proof.
  induction T as [|s T IH]; intros H; cbn [fold_left]; [reflexivity|].
  rewrite (sweep_cell_keep a b s (H s (or_introl eq_refl))).
  apply IH. intros s' Hs'. apply H. now right.
Qed.

Lemma re_sub_pair_gone (a b : ascii) (cur : str) :
  ~ In a (re_sub_pair a b cur) /\ ~ In b (re_sub_pair a b cur).
Proof.
  unfold re_sub_pair. split; intros H; apply filter_In in H as [_ H].
  - rewrite Ascii.eqb_refl in H. discriminate.
  - rewrite Ascii.eqb_refl, orb_true_r in H. discriminate.
Qed.

Lemma fold_sweep_pair (a b : ascii) (T : list str) :
  (forall s, In s T -> s = [a] ++ [b] \/ (length s = 2 /\ ~ In a s /\ ~ In b s)) ->
  In ([a] ++ [b]) T ->
  forall cur,
    fold_left sweep_cell T cur = [a] ++ [b] \/
    (~ In a (fold_left sweep_cell T cur) /\ ~ In b (fold_left sweep_cell T cur)).
Proof.
  induction T as [|s T IH]; intros H Hin cur; [contradiction|].
  assert (H2 : forall s', In s' T ->
            s' = [a] ++ [b] \/ (length s' = 2 /\ ~ In a s' /\ ~ In b s'))
    by (intros s' Hs'; apply H; now right).
  cbn [fold_left]. destruct Hin as [->|Hin]; [|now apply IH].
  cbn [sweep_cell app]. destruct (str_eqb cur [a; b]) eqn:E; cbn [negb].
  - left. apply str_eqb_eq in E. rewrite E. exact (fold_sweep_keep a b T H2).
  - right. destruct (re_sub_pair_gone a b cur) as [Ha Hb].
    pose proof (fold_sweep_subseq T (re_sub_pair a b cur)) as S.
    split; intros Hx; [apply Ha | apply Hb]; exact (subseq_In _ _ _ S Hx).
Qed.

Lemma fold_sweep_origin (T : list str) (x : ascii) :
  forall cur, In x cur -> ~ In x (fold_left sweep_cell T cur) ->
  exists a b, In ([a] ++ [b]) T /\ (x = a \/ x = b).
Proof.
  induction T as [|s T IH]; intros cur Hx Hn; cbn [fold_left] in Hn; [contradiction|].
  destruct (in_dec ascii_dec x (sweep_cell cur s)) as [Hin|Hout].
  - destruct (IH _ Hin Hn) as (a & b & HT & Hab).
    exists a, b. split; [now right | assumption].
  - unfold sweep_cell in Hout. destruct s as [|a [|b [|z s]]]; try contradiction.
    destruct (negb _); [|contradiction].
    exists a, b. split; [now left|].
    exact (re_sub_pair_keeps a b x cur Hx Hout).
Qed.

(** C4, as stated, fails.  On [twin_board] exactly two cells of row A, A1 and
    A2, hold "12", and [naked_twins] leaves "1" in A1: the pair "23" of
    column 1 is swept later over the same dict.  On [double_twin_board] the
    digit 3 is removed from A3, whose string was "13", although in the units
    of A3 only "13" holds a 3 among the two-character strings and A3 is one
    of its two holders.  On [merged_twin_board] exactly two cells of row A,
    A3 and A4, hold "12", and A5, another cell of the row, keeps 1 and 2: the
    sweep for "34" has made its string "12" before the sweep for "12". *)
Lemma naked_twins_not_per_unit :
  (In (cross (lit "A") cols) units /\
   holders twin_board (cross (lit "A") cols) (lit "12") = [lit "A1"; lit "A2"] /\
   naked_twins twin_board (lit "A1") = lit "1") /\
  (double_twin_board (lit "A3") = lit "13" /\
   naked_twins double_twin_board (lit "A3") = [] /\
   forall unit s, In unit units -> In (lit "A3") unit -> length s = 2 ->
     In "3"%char s -> length (holders double_twin_board unit s) = 2 ->
     s = lit "13") /\
  (holders merged_twin_board (cross (lit "A") cols) (lit "12") = [lit "A3"; lit "A4"] /\
   merged_twin_board (lit "A5") = lit "1234" /\
   naked_twins merged_twin_board (lit "A5") = lit "12").
Proof.
  split; [split; [|split]|split; [split; [|split]|split; [|split]]].
  - left. reflexivity.
  - vm_compute. reflexivity.
  - vm_compute. reflexivity.
  - vm_compute. reflexivity.
  - vm_compute. reflexivity.
  - intros unit s Hu Hb Hlen H3 H2.
    assert (Hin : In s (map double_twin_board unit)).
    { destruct (holders double_twin_board unit s) as [|x l] eqn:E; [discriminate|].
      assert (Hx : In x (holders double_twin_board unit s)) by (rewrite E; now left).
      apply filter_In in Hx as [Hxu Hxs]. apply str_eqb_eq in Hxs. subst s.
      now apply in_map. }
    assert (Hall : forallb (fun u =>
              negb (box_in (lit "A3") u) ||
              forallb (fun t => negb (length t =? 2) || negb (char_in "3"%char t)
                                || str_eqb t (lit "13"))
                      (map double_twin_board u)) units = true)
      by (vm_compute; reflexivity).
    apply (proj1 (forallb_forall _ _) Hall) in Hu.
    apply orb_true_iff in Hu as [Hu|Hu].
    + apply box_in_In in Hb. rewrite Hb in Hu. discriminate.
    + apply (proj1 (forallb_forall _ _) Hu) in Hin.
      apply Nat.eqb_eq in Hlen. apply char_in_In in H3.
      rewrite Hlen, H3 in Hin. cbn [negb orb] in Hin. now apply str_eqb_eq.
  - vm_compute. reflexivity.
  - vm_compute. reflexivity.
  - vm_compute. reflexivity.
Qed.

(** C4, amended -- [naked_twins] goes through the units in order, each pass
    working on the board (of digit strings) as the passes before left it.
    In the pass over a unit, the two-character strings held by exactly two
    cells of the unit are swept one after the other: a cell of the unit loses
    the two digits of a pair unless its string is that pair when the pair is
    swept; cells outside the unit are not touched.  So for a pair [a + b]
    held by exactly two cells, whose digits no other such pair of the unit
    has: the two twins are left untouched, and every other cell of the unit
    ends without [a] and without [b] -- except a cell that ends as [a + b]
    itself, which can only be a cell made of [a], [b] and digits of the other
    pairs; when [a + b] is the only pair, every other cell ends as its string
    less [a] and [b].  Conversely, whenever the pass removes a digit from a
    cell, the cell is in the unit and a two-character string with that digit
    is held by exactly two cells of the unit, and the cell is not one of the
    two when no other pair shares a digit with it.  When no two-character
    string is held by exactly two cells -- a pair held by three or more --
    the pass changes nothing. *)
Theorem naked_twins_unit_contract (values : board) (unit : list str) :
  In unit units ->
  (forall box ch, In box unit -> In ch (values box) -> In ch cols) ->
  (forall box,
     naked_twins_unit values unit box
     = if box_in box unit
       then fold_left sweep_cell (twin_strings values unit) (values box)
       else values box) /\
  (forall s, In s (twin_strings values unit) <->
             length s = 2 /\ length (holders values unit s) = 2) /\
  (forall a b,
     length (holders values unit ([a] ++ [b])) = 2 ->
     (forall s, s <> [a] ++ [b] -> length s = 2 ->
        length (holders values unit s) = 2 -> ~ In a s /\ ~ In b s) ->
     (forall box, values box = [a] ++ [b] ->
        naked_twins_unit values unit box = [a] ++ [b]) /\
     (forall box, In box unit ->
        naked_twins_unit values unit box = [a] ++ [b] \/
        (~ In a (naked_twins_unit values unit box) /\
         ~ In b (naked_twins_unit values unit box))) /\
     (forall box, In box unit -> naked_twins_unit values unit box = [a] ++ [b] ->
        forall x, In x (values box) ->
          x = a \/ x = b \/
          exists s, s <> [a] ++ [b] /\ length s = 2 /\
                    length (holders values unit s) = 2 /\ In x s) /\
     (forall box, ~ In box unit -> naked_twins_unit values unit box = values box)) /\
  (forall a b,
     length (holders values unit ([a] ++ [b])) = 2 ->
     (forall s, s <> [a] ++ [b] -> length s = 2 ->
        length (holders values unit s) <> 2) ->
     forall box, In box unit -> values box <> [a] ++ [b] ->
       naked_twins_unit values unit box = re_sub_pair a b (values box)) /\
  (forall box d,
     In d (values box) -> ~ In d (naked_twins_unit values unit box) ->
     In box unit /\
     exists a b, (d = a \/ d = b) /\
       length (holders values unit ([a] ++ [b])) = 2 /\
       ((forall s, s <> [a] ++ [b] -> length s = 2 ->
           length (holders values unit s) = 2 -> ~ In a s /\ ~ In b s) ->
        values box <> [a] ++ [b])) /\
  ((forall s, length s = 2 -> length (holders values unit s) <> 2) ->
   naked_twins_unit values unit = values) /\
  naked_twins values = fold_left naked_twins_unit units values.
Proof.
  intros Hu _. pose proof (unit_NoDup unit Hu) as N.
  assert (Hexact : forall box,
     naked_twins_unit values unit box
     = if box_in box unit
       then fold_left sweep_cell (twin_strings values unit) (values box)
       else values box)
    by (intros box; now apply naked_twins_unit_exact).
  assert (Hothers : forall a b,
     (forall s, s <> [a] ++ [b] -> length s = 2 ->
        length (holders values unit s) = 2 -> ~ In a s /\ ~ In b s) ->
     forall s, In s (twin_strings values unit) ->
       s = [a] ++ [b] \/ (length s = 2 /\ ~ In a s /\ ~ In b s)).
  { intros a b Hd s Hs. apply twin_strings_spec in Hs as [Hlen H2].
    destruct (list_eq_dec ascii_dec s ([a] ++ [b])) as [E|E]; [now left|].
    right. split; [assumption|]. now apply Hd. }
  assert (Htwin : forall a b,
     (forall s, s <> [a] ++ [b] -> length s = 2 ->
        length (holders values unit s) = 2 -> ~ In a s /\ ~ In b s) ->
     forall box, values box = [a] ++ [b] ->
       naked_twins_unit values unit box = [a] ++ [b]).
  { intros a b Hd box E. rewrite Hexact, E.
    destruct (box_in box unit); [|reflexivity].
    apply fold_sweep_keep. now apply Hothers. }
  split; [exact Hexact|]. split; [apply twin_strings_spec|].
  split; [|split; [|split; [|split]]].
  - intros a b H2 Hd.
    assert (HT : In ([a] ++ [b]) (twin_strings values unit))
      by (apply twin_strings_spec; split; [reflexivity | assumption]).
    split; [now apply Htwin|]. split; [|split].
    + intros box Hb. rewrite Hexact. apply box_in_In in Hb. rewrite Hb.
      apply fold_sweep_pair; [now apply Hothers | assumption].
    + intros box Hb Hend x Hx.
      destruct (in_dec ascii_dec x (naked_twins_unit values unit box)) as [Hin|Hout].
      * rewrite Hend in Hin. destruct Hin as [<-|[<-|[]]]; [now left | right; now left].
      * rewrite Hexact in Hout. apply box_in_In in Hb. rewrite Hb in Hout.
        destruct (fold_sweep_origin _ x _ Hx Hout) as (p & q & HTpq & Hpq).
        destruct (list_eq_dec ascii_dec ([p] ++ [q]) ([a] ++ [b])) as [E|E].
        -- cbn [app] in E. injection E as -> ->.
           destruct Hpq as [Hp|Hp]; [left | right; left]; exact Hp.
        -- right. right. exists ([p] ++ [q]).
           apply twin_strings_spec in HTpq as [Hlen Hc].
           split; [assumption|]. split; [assumption|]. split; [assumption|].
           destruct Hpq as [Hp|Hp]; rewrite Hp; [now left | right; now left].
    + intros box Hb. rewrite Hexact.
      destruct (box_in box unit) eqn:E; [|reflexivity].
      apply box_in_In in E. contradiction.
  - intros a b H2 Huniq box Hb Hne.
    rewrite (naked_twins_unit_single values unit a b H2 Huniq).
    rewrite (twins_sweep_spec a b unit N values box).
    apply box_in_In in Hb. apply str_eqb_neq in Hne. now rewrite Hb, Hne.
  - intros box d Hd Hn. unfold naked_twins_unit in Hn.
    destruct (fold_items_removes unit d box _ values Hd Hn) as (Hb & a & b & Hin & Hab).
    split; [assumption|]. exists a, b. split; [assumption|].
    apply count_pairs_item in Hin as [_ H2]. symmetry in H2.
    split; [assumption|].
    intros Hdis E. apply Hn. fold (naked_twins_unit values unit).
    rewrite (Htwin a b Hdis box E). now rewrite <- E.
  - intros Hnone. unfold naked_twins_unit. apply fold_items_skip.
    intros k n Hin. apply count_pairs_item in Hin as [Hlen ->]. now apply Hnone.
  - reflexivity.
Qed.

Lemma naked_twins_unit_contract_witness :
  (forall box, disjoint_twin_board box = lit "12" ->
     naked_twins_unit disjoint_twin_board (cross (lit "A") cols) box = lit "12") /\
  (forall box, In box (cross (lit "A") cols) ->
     naked_twins_unit disjoint_twin_board (cross (lit "A") cols) box = lit "12" \/
     (~ In "1"%char (naked_twins_unit disjoint_twin_board (cross (lit "A") cols) box) /\
      ~ In "2"%char (naked_twins_unit disjoint_twin_board (cross (lit "A") cols) box))) /\
  (forall box, In box (cross (lit "A") cols) ->
     naked_twins_unit disjoint_twin_board (cross (lit "A") cols) box = lit "12" ->
     forall x, In x (disjoint_twin_board box) ->
       x = "1"%char \/ x = "2"%char \/
       exists s, s <> lit "12" /\ length s = 2 /\
                 length (holders disjoint_twin_board (cross (lit "A") cols) s) = 2 /\
                 In x s) /\
  (forall box, ~ In box (cross (lit "A") cols) ->
     naked_twins_unit disjoint_twin_board (cross (lit "A") cols) box
     = disjoint_twin_board box).
Proof.
  assert (Hu : In (cross (lit "A") cols) units) by (left; reflexivity).
  assert (Hdig : forall box ch, In box (cross (lit "A") cols) ->
            In ch (disjoint_twin_board box) -> In ch cols).
  { intros box ch Hb Hch.
    assert (H : forallb (fun b => forallb (fun c => char_in c cols) (disjoint_twin_board b))
                        (cross (lit "A") cols) = true) by (vm_compute; reflexivity).
    apply (proj1 (forallb_forall _ _) H) in Hb.
    apply (proj1 (forallb_forall _ _) Hb) in Hch. now apply char_in_In. }
  destruct (naked_twins_unit_contract disjoint_twin_board (cross (lit "A") cols) Hu Hdig)
    as (_ & _ & HA & _).
  apply (HA "1"%char "2"%char).
  - vm_compute. reflexivity.
  - intros s Hne Hlen H2.
    assert (Hin : In s (map disjoint_twin_board (cross (lit "A") cols))).
    { destruct (holders disjoint_twin_board (cross (lit "A") cols) s) as [|x l] eqn:E;
        [discriminate|].
      assert (Hx : In x (holders disjoint_twin_board (cross (lit "A") cols) s))
        by (rewrite E; now left).
      apply filter_In in Hx as [Hxu Hxs]. apply str_eqb_eq in Hxs. subst s.
      now apply in_map. }
    assert (Hall : forallb (fun t => negb (length t =? 2) || str_eqb t (lit "12")
                                     || str_eqb t (lit "34"))
                           (map disjoint_twin_board (cross (lit "A") cols)) = true)
      by (vm_compute; reflexivity).
    apply (proj1 (forallb_forall _ _) Hall) in Hin.
    apply Nat.eqb_eq in Hlen. rewrite Hlen in Hin. cbn [negb orb] in Hin.
    apply orb_true_iff in Hin as [Hin|Hin]; apply str_eqb_eq in Hin.
    + contradiction.
    + subst s. split; intros H; vm_compute in H; intuition discriminate.
Defined.

(** * Further properties of the code *)

(** ** Search: termination, candidates, failure values *)

Lemma branch_box_unsolved (v : board) :
  (forall box, In box boxes -> length (v box) <= 9) ->
  is_searchable v = true ->
  length (v (find_smallest_box v)) <> 1.
Proof.
  intros Hlen Hd.
  destruct (find_smallest_box_spec v) as (l1 & l2 & _ & _ & Hle).
  destruct (searchable_has_unsolved v boxes) as (c0 & Hc0 & Hc0len).
  { unfold is_searchable, tuple in Hd. apply Nat.ltb_lt in Hd.
    rewrite boxes_length. exact Hd. }
  specialize (Hle c0 Hc0). specialize (Hlen c0 Hc0). unfold box_key in Hle.
  destruct (length (v c0) =? 1) eqn:E0; [apply Nat.eqb_eq in E0; lia|].
  destruct (length (v (find_smallest_box v)) =? 1) eqn:E1; [lia|].
  now apply Nat.eqb_neq.
Qed.

Lemma set_box_count_lt (v : board) (box : str) (s : str) :
  In box boxes -> subseq s (v box) -> length s < length (v box) ->
  candidate_count (copy (set_box v box s)) < candidate_count v.
Proof.
  intros Hb Hs Hlt.
  assert (Sh : shrinks (copy (set_box v box s)) v).
  { eapply shrinks_trans; [apply copy_shrinks | now apply shrinks_set_box]. }
  destruct (shrinks_candidate_count _ _ Sh) as [H|H]; [assumption|].
  specialize (H box Hb). rewrite (copy_agree _ box Hb), set_box_same in H.
  rewrite H in Hlt. lia.
Qed.

Lemma first_success_total (results : list (option result)) :
  (forall x, In x results -> exists r, x = Some r) ->
  exists r, first_success results = Some r.
Proof.
  induction results as [|x results IH]; cbn [first_success]; intros H.
  - now exists ReturnNone.
  - destruct (H x (or_introl eq_refl)) as (r & ->).
    destruct (truthy r); [now exists r|].
    apply IH. intros y Hy. apply H. now right.
Qed.

Lemma first_success_solved (results : list (option result)) (r : board) :
  first_success results = Some (Solved r) -> In (Some (Solved r)) results.
Proof.
  induction results as [|x results IH]; cbn [first_success]; intros H.
  - inversion H.
  - destruct x as [y|]; [|inversion H].
    destruct (truthy y) eqn:T.
    + left. exact H.
    + right. now apply IH.
Qed.

Lemma first_success_not_false (results : list (option result)) :
  first_success results <> Some ReturnFalse.
Proof.
  induction results as [|x results IH]; cbn [first_success]; intros H.
  - inversion H.
  - destruct x as [y|]; [|inversion H].
    destruct y; cbn [truthy] in H; try (inversion H; fail); now apply IH.
Qed.

Lemma search_total (hash : list str -> Z) (fuel : nat) :
  forall values,
    (forall box, In box boxes -> subseq (values box) cols) ->
    candidate_count values < fuel ->
    exists r, search hash fuel values = Some r.
Proof.
  induction fuel as [|fuel IH]; intros values Hwf Hlt; [lia|].
  cbn [search].
  destruct (reduce_loop_total hash (S (candidate_count values)) values) as (v & L);
    [lia|].
  rewrite L. pose proof (proj1 (reduce_loop_exit hash _ _ _ L)) as Sv.
  assert (Hsub : forall box, In box boxes -> subseq (v box) cols).
  { intros box Hb. eapply subseq_trans; [apply Sv | now apply Hwf]. }
  assert (Hcount : candidate_count v <= candidate_count values).
  { destruct (shrinks_candidate_count _ _ Sv) as [H|H]; [lia|].
    apply tuple_agree in H. unfold candidate_count. rewrite H. lia. }
  destruct (is_solved v); [now exists (Solved v)|].
  unfold search_branch. destruct (is_searchable v) eqn:Hd; cbn [negb];
    [|now exists ReturnFalse].
  rewrite try_guesses_first_success. apply first_success_total.
  intros x Hx. apply in_map_iff in Hx as (g & <- & Hg).
  pose proof (find_smallest_box_In v) as Hin.
  assert (Hne : length (v (find_smallest_box v)) <> 1).
  { apply branch_box_unsolved; [|assumption].
    intros box Hb. apply (subseq_length _ _ (Hsub box Hb)). }
  assert (H2 : 1 < length (v (find_smallest_box v))).
  { destruct (v (find_smallest_box v)) as [|c [|c' rest]]; cbn [length] in *;
      [contradiction | lia | lia]. }
  apply IH.
  - intros box Hb. rewrite (copy_agree _ box Hb). unfold set_box.
    destruct (str_eqb box (find_smallest_box v)); [|now apply Hsub].
    apply subseq_single. apply (subseq_In _ _ g (Hsub _ Hin) Hg).
  - assert (candidate_count (copy (set_box v (find_smallest_box v) [g]))
            < candidate_count v); [|lia].
    apply set_box_count_lt; [assumption | now apply subseq_single | exact H2].
Qed.

(** X1 -- [search] returns: on a board whose candidate strings are "123456789"
    with digits deleted (as [grid_values] makes them from digits and dots),
    the recursion is never deeper than the number of candidates on the board,
    and so is [solve] on any such grid. *)
Theorem search_terminates (hash : list str -> Z) (values : board) :
  (forall box, In box boxes -> subseq (values box) cols) ->
  exists r, search hash (S (candidate_count values)) values = Some r.
Proof. intros Hwf. apply search_total; [assumption | lia]. Qed.

Lemma search_terminates_witness :
  exists r, search length_hash (S (candidate_count (grid_values empty_grid)))
                   (grid_values empty_grid) = Some r.
Proof.
  apply (search_terminates length_hash (grid_values empty_grid)).
  intros box _. apply grid_values_subseq. intros c Hc. left.
  apply (repeat_spec _ _ _ Hc).
Defined.

Lemma search_shrinks (hash : list str -> Z) (fuel : nat) :
  forall values r, search hash fuel values = Some (Solved r) -> shrinks r values.
Proof.
  induction fuel as [|fuel IH]; intros values r H; [inversion H|].
  cbn [search] in H.
  destruct (reduce_loop hash (S (candidate_count values)) values) as [v|] eqn:L;
    [|inversion H].
  pose proof (proj1 (reduce_loop_exit hash _ _ _ L)) as Sv.
  destruct (is_solved v).
  - inversion H; subst. exact Sv.
  - unfold search_branch in H.
    destruct (negb (is_searchable v)); [inversion H|].
    rewrite try_guesses_first_success in H.
    apply first_success_solved, in_map_iff in H as (g & Hr & Hg).
    apply IH in Hr.
    eapply shrinks_trans; [exact Hr|].
    eapply shrinks_trans; [apply copy_shrinks|].
    eapply shrinks_trans; [|exact Sv].
    now apply shrinks_set_box, subseq_single.
Qed.

(** X2 -- [search] only removes candidates: in a board it returns, the string of
    each box is the string that box had in the input with characters deleted,
    so every digit of the result was a candidate of that box at the start. *)
Theorem search_keeps_only_candidates (hash : list str -> Z) (fuel : nat)
        (values r : board) (box : str) :
  search hash fuel values = Some (Solved r) ->
  subseq (r box) (values box) /\
  (forall digit, In digit (r box) -> In digit (values box)).
Proof.
  intros H. apply search_shrinks in H. split; [apply H|].
  intros digit. apply subseq_In, H.
Qed.

Lemma search_keeps_only_candidates_witness :
  subseq (grid_values solved_grid (lit "C7")) (grid_values solved_grid (lit "C7")) /\
  (forall digit, In digit (grid_values solved_grid (lit "C7")) ->
                 In digit (grid_values solved_grid (lit "C7"))).
Proof.
  apply (search_keeps_only_candidates length_hash 1 (grid_values solved_grid)).
  vm_compute. reflexivity.
Defined.

(** X3 -- The loop of [search] is idempotent: run again on the board it stopped on,
    it stops on that board at the first pass, whatever the hash. *)
Theorem reduce_loop_idempotent (hash : list str -> Z) (passes more : nat)
        (values v : board) :
  reduce_loop hash passes values = Some v ->
  reduce_loop hash (S more) v = Some v.
Proof.
  intros H. apply reduce_loop_exit in H as [_ H]. cbn [reduce_loop]. now rewrite H.
Qed.

Lemma reduce_loop_idempotent_witness :
  reduce_loop length_hash 1 dead_board = Some dead_board.
Proof.
  apply (reduce_loop_idempotent length_hash 82 0 dead_board dead_board).
  vm_compute. reflexivity.
Defined.

(** X4 -- [search] returns [False] only from the dead check of the call itself:
    then the board left by its loop is neither solved nor searchable.  A
    call whose branches all fail returns [None], also when a branch returned
    [False]. *)
Theorem search_false_only_at_dead_check (hash : list str -> Z) (fuel : nat)
        (values : board) :
  search hash fuel values = Some ReturnFalse ->
  exists v, reduce_loop hash (S (candidate_count values)) values = Some v /\
            is_solved v = false /\ is_searchable v = false.
Proof.
  destruct fuel as [|fuel]; intros H; [inversion H|].
  cbn [search] in H.
  destruct (reduce_loop hash (S (candidate_count values)) values) as [v|] eqn:L;
    [|inversion H].
  exists v. split; [reflexivity|].
  destruct (is_solved v); [inversion H|]. split; [reflexivity|].
  unfold search_branch in H. destruct (is_searchable v); [|reflexivity].
  cbn [negb] in H. rewrite try_guesses_first_success in H.
  now apply first_success_not_false in H.
Qed.

Lemma search_false_only_at_dead_check_witness :
  exists v, reduce_loop length_hash (S (candidate_count dead_board)) dead_board = Some v /\
            is_solved v = false /\ is_searchable v = false.
Proof.
  apply (search_false_only_at_dead_check length_hash 1 dead_board).
  vm_compute. reflexivity.
Defined.

(** ** Elimination *)

Lemma str_replace_char (s : str) (d : ascii) :
  str_replace s [d] = List.filter (fun c => negb (Ascii.eqb d c)) s.
Proof.
  unfold str_replace. induction s as [|c s IH]; [reflexivity|].
  cbn [replace_scan is_prefix List.filter length Nat.sub].
  destruct (Ascii.eqb d c); cbn [andb negb]; [exact IH | now rewrite IH].
Qed.

Lemma subseq_of_single (t : str) (d : ascii) : subseq t [d] -> t = [] \/ t = [d].
Proof.
  intros H. inversion H as [|c s t' H'|c s t' H']; subst.
  - inversion H'. now left.
  - inversion H'. now right.
Qed.

Lemma eliminate_peers_spec (digit : str) (l : list str) :
  NoDup l ->
  forall values k,
    fold_left (fun values peer => set_box values peer (str_replace (values peer) digit))
              l values k
    = if box_in k l then str_replace (values k) digit else values k.
Proof.
  induction 1 as [|x l Hx N IH]; intros values k; cbn [fold_left]; [reflexivity|].
  rewrite IH. cbn [box_in existsb]. fold (box_in k l).
  destruct (str_eqb k x) eqn:E.
  - apply str_eqb_eq in E. subst x.
    assert (Hnot : box_in k l = false).
    { destruct (box_in k l) eqn:E; [|reflexivity].
      apply box_in_In in E. contradiction. }
    rewrite Hnot. cbn [orb]. apply set_box_same.
  - cbn [orb]. rewrite !(set_box_other values x k) by (now apply str_eqb_neq).
    reflexivity.
Qed.

(** One round of the outer loop of [eliminate], for the solved box [box]. *)
Lemma eliminate_step_spec (values : board) (box k : str) :
  fold_left (fun w peer => set_box w peer (str_replace (w peer) (values box)))
            (peers box) values k
  = if box_in k (peers box) then str_replace (values k) (values box) else values k.
Proof. apply eliminate_peers_spec, peers_NoDup. Qed.

Lemma eliminate_fold_removes (values : board) (d : ascii) (k : str) (l : list str) :
  (forall b, In b l -> In b boxes /\ length (values b) = 1) ->
  forall s, shrinks s values ->
    In d (s k) ->
    ~ In d (fold_left (fun values box =>
                         let digit := values box in
                         fold_left (fun values peer =>
                                      set_box values peer (str_replace (values peer) digit))
                                   (peers box) values) l s k) ->
    exists b, In b boxes /\ In k (peers b) /\ values b = [d].
Proof.
  induction l as [|b l IH]; intros Hl s Sh Hd Hn; cbn [fold_left] in Hn;
    [contradiction|].
  set (s' := fold_left (fun values peer =>
                          set_box values peer (str_replace (values peer) (s b)))
                       (peers b) s) in *.
  assert (Sh' : shrinks s' s).
  { unfold s'. apply fold_left_shrinks. intros w peer.
    apply shrinks_set_box, subseq_str_replace. }
  destruct (in_dec ascii_dec d (s' k)) as [Hin|Hout].
  - apply (IH (fun b' Hb' => Hl b' (or_intror Hb')) s'); try assumption.
    eapply shrinks_trans; eassumption.
  - unfold s' in Hout. rewrite eliminate_step_spec in Hout.
    destruct (box_in k (peers b)) eqn:Ek; [|contradiction].
    destruct (Hl b (or_introl eq_refl)) as [Hb Hlen].
    destruct (values b) as [|d0 [|d1 rest]] eqn:Eb; try discriminate.
    pose proof (Sh b) as Hsb. rewrite Eb in Hsb.
    destruct (subseq_of_single _ _ Hsb) as [Es|Es]; rewrite Es in Hout.
    + contradiction.
    + rewrite str_replace_char in Hout.
      exists b. split; [assumption|]. split; [now apply box_in_In|].
      rewrite Eb. f_equal.
      destruct (Ascii.eqb d0 d) eqn:E; [now apply Ascii.eqb_eq|].
      exfalso. apply Hout, filter_In. split; [assumption | now rewrite E].
Qed.

(** X5 -- [eliminate] is sound: when it removes a digit from a box, that digit was
    the whole candidate string of a box of which this one is a peer; a box
    that is the peer of no solved box keeps its string. *)
Theorem eliminate_sound (values : board) (box : str) (digit : ascii) :
  In digit (values box) -> ~ In digit (eliminate values box) ->
  exists solved, In solved boxes /\ In box (peers solved) /\ values solved = [digit].
Proof.
  intros Hd Hn. unfold eliminate in Hn.
  apply (eliminate_fold_removes values digit box
           (List.filter (fun b => length (values b) =? 1) boxes)) with (s := values).
  - intros b Hb. apply filter_In in Hb as [Hb Hlen].
    split; [assumption | now apply Nat.eqb_eq].
  - apply shrinks_refl.
  - exact Hd.
  - exact Hn.
Qed.

Lemma eliminate_sound_witness :
  exists solved, In solved boxes /\ In (lit "A2") (peers solved) /\
                 set_box (grid_values empty_grid) (lit "A1") (lit "5") solved = ["5"%char].
Proof.
  apply (eliminate_sound (set_box (grid_values empty_grid) (lit "A1") (lit "5"))
                         (lit "A2") "5"%char).
  - vm_compute. do 4 right. left. reflexivity.
  - vm_compute. intros H. repeat (destruct H as [H|H]; [discriminate H|]). exact H.
Defined.

Lemma consistentb_spec (values : board) : consistentb values = true -> consistent values.
Proof.
  unfold consistentb. intros H b b' Hb Hb' Hlen Hp E.
  apply (proj1 (forallb_forall _ _) H) in Hb.
  apply (proj1 (forallb_forall _ _) Hb) in Hb'.
  apply Nat.eqb_eq in Hlen. apply box_in_In in Hp. apply str_eqb_eq in E.
  rewrite Hlen, Hp, E in Hb'. discriminate.
Qed.

Lemma filter_filter {X : Type} (f g : X -> bool) (l : list X) :
  List.filter f (List.filter g l) = List.filter (fun x => g x && f x) l.
Proof.
  induction l as [|x l IH]; cbn [List.filter]; [reflexivity|].
  destruct (g x); cbn [List.filter andb]; [|exact IH].
  destruct (f x); now rewrite IH.
Qed.

Lemma removed_by_snoc (values : board) (P : list str) (b k : str) (c : ascii) :
  removed_by values (P ++ [b]) k c
  = removed_by values P k c || (char_in c (values b) && box_in k (peers b)).
Proof.
  unfold removed_by. rewrite existsb_app. cbn [existsb]. now rewrite orb_false_r.
Qed.

Lemma eliminate_fold_spec (values : board) :
  consistent values ->
  forall l P s,
    (forall b, In b (P ++ l) -> In b boxes /\ length (values b) = 1) ->
    (forall k, s k = List.filter (fun c => negb (removed_by values P k c)) (values k)) ->
    forall k,
      fold_left (fun values box =>
                   let digit := values box in
                   fold_left (fun values peer =>
                                set_box values peer (str_replace (values peer) digit))
                             (peers box) values) l s k
      = List.filter (fun c => negb (removed_by values (P ++ l) k c)) (values k).
Proof.
  intros Hc. induction l as [|b l IH]; intros P s Hl Hs k; cbn [fold_left].
  - rewrite app_nil_r. apply Hs.
  - replace (P ++ b :: l) with ((P ++ [b]) ++ l)
      by (rewrite <- app_assoc; reflexivity).
    destruct (Hl b (in_elt b P l)) as [Hb Hlen].
    destruct (values b) as [|d [|d' rest]] eqn:Eb; try discriminate.
    assert (Esb : s b = [d]).
    { rewrite Hs, Eb. cbn [List.filter].
      destruct (removed_by values P b d) eqn:Er; [|reflexivity].
      exfalso. unfold removed_by in Er.
      apply existsb_exists in Er as (b0 & Hb0 & Hand).
      apply andb_true_iff in Hand as [Hch Hp].
      apply char_in_In in Hch. apply box_in_In in Hp.
      destruct (Hl b0 (in_or_app _ _ _ (or_introl Hb0))) as [Hb0b Hlen0].
      apply (Hc b0 b Hb0b Hb Hlen0 Hp).
      destruct (values b0) as [|d0 [|d1 r0]]; try discriminate.
      destruct Hch as [->|[]]. now rewrite Eb. }
    apply IH.
    + intros b1 Hb1. apply Hl. rewrite <- app_assoc in Hb1. exact Hb1.
    + intros k1. rewrite eliminate_step_spec, Esb, str_replace_char, Hs.
      destruct (box_in k1 (peers b)) eqn:Ek.
      * rewrite filter_filter. apply filter_ext. intros c.
        rewrite removed_by_snoc, Eb, Ek. unfold char_in. cbn [existsb].
        rewrite (Ascii.eqb_sym d c), orb_false_r, andb_true_r.
        now rewrite negb_orb.
      * apply filter_ext. intros c.
        now rewrite removed_by_snoc, Ek, andb_false_r, orb_false_r.
Qed.

Lemma eliminate_filter_spec (values : board) (k : str) :
  consistent values ->
  eliminate values k
  = List.filter
      (fun c => negb (removed_by values
                        (List.filter (fun b => length (values b) =? 1) boxes) k c))
      (values k).
Proof.
  intros Hc. unfold eliminate.
  apply (eliminate_fold_spec values Hc
           (List.filter (fun b => length (values b) =? 1) boxes) [] values).
  - intros b Hb. cbn [app] in Hb. apply filter_In in Hb as [Hb Hlen].
    split; [assumption | now apply Nat.eqb_eq].
  - intros k'. cbn [removed_by existsb negb].
    symmetry. apply forallb_filter_id. apply forallb_forall. reflexivity.
Qed.

Lemma removed_by_solved (values : board) (k : str) (c : ascii) :
  removed_by values (List.filter (fun b => length (values b) =? 1) boxes) k c = true <->
  exists b, In b boxes /\ In k (peers b) /\ values b = [c].
Proof.
  unfold removed_by. rewrite existsb_exists. split.
  - intros (b & Hb & Hand). apply filter_In in Hb as [Hb Hlen].
    apply Nat.eqb_eq in Hlen. apply andb_true_iff in Hand as [Hch Hp].
    apply char_in_In in Hch. apply box_in_In in Hp.
    exists b. split; [assumption|]. split; [assumption|].
    destruct (values b) as [|d0 [|d1 r0]]; try discriminate.
    destruct Hch as [->|[]]. reflexivity.
  - intros (b & Hb & Hp & E). exists b. split.
    + apply filter_In. split; [assumption|]. now rewrite E.
    + apply andb_true_iff. split; [|now apply box_in_In].
      apply char_in_In. rewrite E. now left.
Qed.

(** X6 -- The contract of [eliminate], on a board where no solved box has a peer
    with the same string: a digit stays in a box exactly when no box of which
    it is a peer is solved with that digit. *)
Theorem eliminate_contract (values : board) (box : str) (digit : ascii) :
  consistent values ->
  (In digit (eliminate values box) <->
   In digit (values box) /\
   forall solved, In solved boxes -> In box (peers solved) ->
                  values solved <> [digit]).
Proof.
  intros Hc. rewrite (eliminate_filter_spec values box Hc), filter_In, negb_true_iff.
  split.
  - intros [Hd Hr]. split; [assumption|]. intros b Hb Hp E.
    assert (Hex : removed_by values
                    (List.filter (fun b0 => length (values b0) =? 1) boxes) box digit = true)
      by (apply removed_by_solved; exists b; split; [assumption|]; split; assumption).
    rewrite Hex in Hr. discriminate.
  - intros [Hd Hn]. split; [assumption|].
    destruct (removed_by _ _ box digit) eqn:Hex; [|reflexivity]. exfalso.
    apply removed_by_solved in Hex as (b & Hb & Hp & E). exact (Hn b Hb Hp E).
Qed.

Lemma eliminate_contract_witness :
  In "4"%char (eliminate (set_box (grid_values empty_grid) (lit "A1") (lit "5")) (lit "A2")) <->
  In "4"%char (set_box (grid_values empty_grid) (lit "A1") (lit "5") (lit "A2")) /\
  forall solved, In solved boxes -> In (lit "A2") (peers solved) ->
                 set_box (grid_values empty_grid) (lit "A1") (lit "5") solved <> ["4"%char].
Proof.
  apply (eliminate_contract (set_box (grid_values empty_grid) (lit "A1") (lit "5"))).
  apply consistentb_spec. vm_compute. reflexivity.
Defined.

(** ** Sole candidates *)

Lemma fold_left_inv {X : Type} (I : board -> Prop) (f : board -> X -> board)
      (l : list X) :
  (forall s x, In x l -> I s -> I (f s x)) ->
  forall s, I s -> I (fold_left f l s).
Proof.
  induction l as [|x l IH]; intros Hf s Hs; cbn [fold_left]; [assumption|].
  apply IH.
  - intros s' y Hy. apply Hf. now right.
  - apply Hf; [now left | assumption].
Qed.

Lemma only_choice_digit_cases (unit : list str) (s : board) (digit : ascii) :
  only_choice_digit unit s digit = s \/
  exists c, List.filter (fun b => char_in digit (s b)) unit = [c] /\
            only_choice_digit unit s digit = set_box s c [digit].
Proof.
  unfold only_choice_digit.
  destruct (List.filter (fun b => char_in digit (s b)) unit) as [|c [|c' l]];
    [now left | right | now left].
  exists c. split; reflexivity.
Qed.

Lemma filter_single_In {X : Type} (f : X -> bool) (l : list X) (c : X) :
  List.filter f l = [c] ->
  In c l /\ f c = true /\ forall x, In x l -> f x = true -> x = c.
Proof.
  intros E.
  assert (Hc : In c (List.filter f l)) by (rewrite E; now left).
  apply filter_In in Hc as [Hc Hf]. split; [assumption|]. split; [assumption|].
  intros x Hx Hfx.
  assert (Hin : In x (List.filter f l)) by (apply filter_In; now split).
  rewrite E in Hin. destruct Hin as [->|[]]. reflexivity.
Qed.

Lemma only_choice_digit_assigned (values s : board) (box : str)
      (unit : list str) (digit : ascii) :
  In unit units -> In digit cols -> shrinks s values ->
  assigned values s box ->
  assigned values (only_choice_digit unit s digit) box.
Proof.
  intros Hu Hd Sh Ha.
  destruct (only_choice_digit_cases unit s digit) as [->|(c & Ef & ->)];
    [assumption|].
  apply filter_single_In in Ef as (Hc & Hch & Huniq). apply char_in_In in Hch.
  destruct (str_eqb box c) eqn:Ebc.
  - apply str_eqb_eq in Ebc. subst c. right. exists digit, unit.
    split; [assumption|]. split; [assumption|]. split; [assumption|].
    split; [apply set_box_same|]. split; [apply (subseq_In _ _ _ (Sh box) Hch)|].
    intros other Ho Hne Hin. rewrite set_box_other in Hin by assumption.
    apply Hne, Huniq; [assumption | now apply char_in_In].
  - apply str_eqb_neq in Ebc. destruct Ha as [Ha|(d & u & Hdc & Hu' & Hb & Es & Hv & Ho)].
    + left. now rewrite set_box_other.
    + right. exists d, u. split; [assumption|]. split; [assumption|].
      split; [assumption|]. split; [now rewrite set_box_other|].
      split; [assumption|]. intros other Hou Hne Hin.
      unfold set_box in Hin. destruct (str_eqb other c) eqn:Eoc.
      * apply str_eqb_eq in Eoc. subst other. destruct Hin as [->|[]].
        now apply (Ho c).
      * now apply (Ho other).
Qed.

Lemma only_choice_assigned (values : board) (box : str) :
  shrinks (only_choice values) values /\ assigned values (only_choice values) box.
Proof.
  unfold only_choice.
  apply (fold_left_inv (fun s => shrinks s values /\ assigned values s box)).
  - intros s unit Hu [Sh Ha]. unfold only_choice_unit.
    apply (fold_left_inv (fun s => shrinks s values /\ assigned values s box)).
    + intros s' digit Hd [Sh' Ha']. split.
      * eapply shrinks_trans; [apply only_choice_digit_shrinks | assumption].
      * now apply only_choice_digit_assigned.
    + now split.
  - split; [apply shrinks_refl | now left].
Qed.

(** X7 -- [only_choice] is sound: a box it changes ends with a single digit that
    was one of its candidates and that, after the rule, no other box of one
    of the units of that box holds. *)
Theorem only_choice_sound (values : board) (box : str) :
  only_choice values box <> values box ->
  exists digit unit,
    In digit cols /\ In unit units /\ In box unit /\
    only_choice values box = [digit] /\ In digit (values box) /\
    forall other, In other unit -> other <> box ->
                  ~ In digit (only_choice values other).
Proof.
  intros Hne. destruct (only_choice_assigned values box) as [_ [H|H]];
    [contradiction | exact H].
Qed.

Lemma only_choice_sound_witness :
  exists digit unit,
    In digit cols /\ In unit units /\ In (lit "A1") unit /\
    only_choice lone_board (lit "A1") = [digit] /\ In digit (lone_board (lit "A1")) /\
    forall other, In other unit -> other <> lit "A1" ->
                  ~ In digit (only_choice lone_board other).
Proof.
  apply (only_choice_sound lone_board (lit "A1")).
  assert (E : only_choice lone_board (lit "A1") = lit "5") by (vm_compute; reflexivity).
  rewrite E. vm_compute. intros H. inversion H.
Defined.

(** ** A solved board is returned as it is *)

Lemma all_single_spec (values : board) :
  all_single values = true <-> forall box, In box boxes -> length (values box) = 1.
Proof.
  unfold all_single. rewrite forallb_forall. split; intros H box Hb.
  - apply Nat.eqb_eq. exact (H box Hb).
  - apply Nat.eqb_eq. exact (H box Hb).
Qed.

Lemma solved_consistent (w : board) : is_solved w = true -> consistent w.
Proof.
  intros Hs b b' Hb Hb' Hlen Hp E.
  apply peers_spec in Hp as [Hne (u & Hu & Hbu & Hb'u)].
  pose proof (is_solved_perm w u Hs Hu) as P.
  assert (N : NoDup (concat (map w u)))
    by (apply (Permutation_NoDup (Permutation_sym P)), cols_NoDup).
  destruct (w b) as [|d [|d' rest]] eqn:Eb; try discriminate.
  assert (H1 : List.filter (fun x => char_in d (w x)) u = [b]).
  { apply unique_place; try assumption. rewrite Eb. now left. }
  assert (H2 : List.filter (fun x => char_in d (w x)) u = [b']).
  { apply unique_place; try assumption. rewrite E. now left. }
  rewrite H1 in H2. inversion H2. congruence.
Qed.

Lemma eliminate_singles (w : board) :
  consistent w -> (forall box, In box boxes -> length (w box) = 1) ->
  agree (eliminate w) w.
Proof.
  intros Hc Hone k Hk. rewrite (eliminate_filter_spec w k Hc).
  specialize (Hone k Hk) as Hlen.
  destruct (w k) as [|d [|d' rest]] eqn:Ek; try discriminate.
  cbn [List.filter].
  destruct (removed_by w _ k d) eqn:Er; [|reflexivity]. exfalso.
  apply removed_by_solved in Er as (b & Hb & Hp & E).
  apply (Hc b k Hb Hk); [now rewrite E | assumption | now rewrite Ek, E].
Qed.

Lemma only_choice_singles (e : board) :
  (forall box, In box boxes -> length (e box) = 1) -> agree (only_choice e) e.
Proof.
  intros Hone. unfold only_choice.
  apply (fold_left_inv (fun s => agree s e)); [|apply agree_refl].
  intros s unit Hu Hs. unfold only_choice_unit.
  apply (fold_left_inv (fun s => agree s e)); [|assumption].
  intros s' digit _ Hs'.
  destruct (only_choice_digit_cases unit s' digit) as [->|(c & Ef & ->)];
    [assumption|].
  apply filter_single_In in Ef as (Hc & Hch & _). apply char_in_In in Hch.
  assert (Hcb : In c boxes) by exact (unit_boxes unit c Hu Hc).
  intros k Hk. unfold set_box. destruct (str_eqb k c) eqn:E; [|exact (Hs' k Hk)].
  apply str_eqb_eq in E. subst k. rewrite (Hs' c Hcb) in Hch.
  specialize (Hone c Hcb). destruct (e c) as [|d [|d' rest]]; try discriminate.
  destruct Hch as [->|[]]. reflexivity.
Qed.

Lemma count_pairs_none (v : board) (l : list str) :
  (forall box, In box l -> length (v box) <> 2) ->
  forall d, fold_left (fun d box =>
                         let val := v box in
                         if length val =? 2 then incr d val else d) l d = d.
Proof.
  induction l as [|box l IH]; intros H d; cbn [fold_left]; [reflexivity|].
  assert (E : (length (v box) =? 2) = false)
    by (apply Nat.eqb_neq, H; now left).
  rewrite E. apply IH. intros b Hb. apply H. now right.
Qed.

Lemma naked_twins_no_pairs (us : list (list str)) :
  forall v, (forall unit, In unit us -> forall box, In box unit -> length (v box) <> 2) ->
            fold_left naked_twins_unit us v = v.
Proof.
  induction us as [|u us IH]; intros v H; cbn [fold_left]; [reflexivity|].
  assert (E : naked_twins_unit v u = v).
  { unfold naked_twins_unit, count_pairs.
    rewrite count_pairs_none by (apply H; now left). reflexivity. }
  rewrite E. apply IH. intros unit Hu. apply H. now right.
Qed.

Lemma solved_board_pass (values : board) :
  (forall box, In box boxes -> length (values box) = 1) ->
  is_solved values = true ->
  agree (reduce_puzzle (copy values)) values.
Proof.
  intros Hone Hs. rewrite reduce_puzzle_unfold.
  pose proof (copy_agree values) as Ac.
  assert (Hw : forall box, In box boxes -> length (copy values box) = 1).
  { intros box Hb. rewrite (Ac box Hb). exact (Hone box Hb). }
  assert (Hsw : is_solved (copy values) = true)
    by (rewrite (is_solved_ext _ _ Ac); exact Hs).
  pose proof (eliminate_singles (copy values) (solved_consistent _ Hsw) Hw) as Ae.
  assert (He : forall box, In box boxes -> length (eliminate (copy values) box) = 1).
  { intros box Hb. rewrite (Ae box Hb). exact (Hw box Hb). }
  pose proof (only_choice_singles _ He) as Ao.
  assert (Ho : forall unit, In unit units -> forall box, In box unit ->
                 length (only_choice (eliminate (copy values)) box) <> 2).
  { intros unit Hu box Hb. pose proof (unit_boxes unit box Hu Hb) as Hbb.
    rewrite (Ao box Hbb), (He box Hbb). discriminate. }
  unfold naked_twins. rewrite (naked_twins_no_pairs units _ Ho).
  eapply agree_trans; [exact Ao|]. eapply agree_trans; [exact Ae | exact Ac].
Qed.

(** X8 -- A board with one digit in every box that passes [is_solved] is a
    fixpoint of the three rules, and [search] (and [solve], on a grid that
    gives this board) returns it as it is, with no recursive call. *)
Theorem search_returns_solved_board (hash : list str -> Z) (values : board) :
  (forall box, In box boxes -> length (values box) = 1) ->
  is_solved values = true ->
  agree (reduce_puzzle (copy values)) values /\
  search hash 1 values = Some (Solved values) /\
  (forall grid, grid_values grid = values -> solve hash 1 grid = Some (Solved values)).
Proof.
  intros Hone Hs. pose proof (solved_board_pass values Hone Hs) as Hfix.
  assert (Hsearch : search hash 1 values = Some (Solved values)).
  { cbn [search]. rewrite (reduce_loop_fixpoint hash _ values Hfix). now rewrite Hs. }
  split; [assumption|]. split; [assumption|].
  intros grid <-. exact Hsearch.
Qed.

Lemma search_returns_solved_board_witness :
  agree (reduce_puzzle (copy (grid_values solved_grid))) (grid_values solved_grid) /\
  search length_hash 1 (grid_values solved_grid) = Some (Solved (grid_values solved_grid)) /\
  (forall grid, grid_values grid = grid_values solved_grid ->
     solve length_hash 1 grid = Some (Solved (grid_values solved_grid))).
Proof.
  apply (search_returns_solved_board length_hash (grid_values solved_grid)).
  - apply all_single_spec. vm_compute. reflexivity.
  - vm_compute. reflexivity.
Defined.

(** ** Parsing a grid *)

Lemma combine_app_r {X Y : Type} (l : list X) :
  forall (g e : list Y), length l <= length g -> combine l (g ++ e) = combine l g.
Proof.
  induction l as [|x l IH]; intros g e H; [reflexivity|].
  destruct g as [|y g]; cbn [length] in H; [lia|].
  cbn [app combine]. f_equal. apply IH. lia.
Qed.

Lemma dict_of_combine_nth (F : ascii -> str) (l : list str) :
  NoDup l ->
  forall (grid : str) i, i < length l -> i < length grid ->
    dict_of (map (fun '(box, val) => (box, F val)) (combine l grid)) (nth i l [])
    = F (nth i grid "."%char).
Proof.
  unfold dict_of.
  induction 1 as [|x l Hx N IH]; intros grid i Hi Hg; cbn [length] in Hi; [lia|].
  destruct grid as [|c grid]; cbn [length] in Hg; [lia|].
  cbn [combine map find fst]. destruct i as [|i]; cbn [nth].
  - now rewrite str_eqb_refl.
  - assert (Hneq : str_eqb x (nth i l []) = false).
    { apply str_eqb_neq. intros ->. apply Hx, nth_In. lia. }
    rewrite Hneq. apply IH; lia.
Qed.

(** X9 -- [grid_values] reads the grid row by row: the box number [i] (A1 is 0, A2
    is 1, ... I9 is 80) gets "123456789" when character [i] of the grid is a
    dot and that one character otherwise; characters after the 81st are
    ignored. *)
Theorem grid_values_reads_grid (grid extra : str) (i : nat) :
  length grid = 81 -> i < 81 ->
  grid_values grid (nth i boxes [])
  = (if Ascii.eqb (nth i grid "."%char) "."%char then cols else [nth i grid "."%char]) /\
  grid_values (grid ++ extra) = grid_values grid.
Proof.
  intros Hlen Hi. split.
  - unfold grid_values.
    apply (dict_of_combine_nth
             (fun val => if Ascii.eqb val "."%char then cols else [val])
             boxes boxes_NoDup grid i).
    + rewrite boxes_length. exact Hi.
    + rewrite Hlen. exact Hi.
  - unfold grid_values. rewrite combine_app_r; [reflexivity|].
    rewrite boxes_length. lia.
Qed.

Lemma grid_values_reads_grid_witness :
  grid_values solved_grid (nth 80 boxes [])
  = (if Ascii.eqb (nth 80 solved_grid "."%char) "."%char then cols
     else [nth 80 solved_grid "."%char]) /\
  grid_values (solved_grid ++ lit "xyz") = grid_values solved_grid.
Proof.
  apply (grid_values_reads_grid solved_grid (lit "xyz") 80).
  - reflexivity.
  - lia.
Defined.

(** ** The cross product and the tables *)

Lemma cross_row_In (a : ascii) (B : str) (s : str) :
  In s (map (fun b => [a] ++ [b]) B) <-> exists b, In b B /\ s = [a; b].
Proof.
  rewrite in_map_iff. split; intros (b & H1 & H2); exists b.
  - split; [assumption | now symmetry].
  - split; [now symmetry | assumption].
Qed.

(** X10 -- [cross(A, B)] has one two-character string [a + b] for each character
    [a] of [A] and [b] of [B], [len(A) * len(B)] in all, without repeats when
    [A] and [B] have none. *)
Theorem cross_product (A B : str) (s : str) :
  (In s (cross A B) <-> exists a b, In a A /\ In b B /\ s = [a; b]) /\
  length (cross A B) = length A * length B /\
  (NoDup A -> NoDup B -> NoDup (cross A B)).
Proof.
  unfold cross. split; [|split].
  - rewrite in_flat_map. split.
    + intros (a & Ha & Hs). apply cross_row_In in Hs as (b & Hb & ->).
      exists a, b. repeat split; assumption.
    + intros (a & b & Ha & Hb & ->). exists a. split; [assumption|].
      apply cross_row_In. now exists b.
  - induction A as [|a A IH]; [reflexivity|].
    cbn [flat_map]. rewrite length_app, length_map. cbn [length Nat.mul].
    f_equal. exact IH.
  - intros NA NB. induction NA as [|a A Ha NA IH]; cbn [flat_map]; [constructor|].
    apply NoDup_app.
    + apply NoDup_map_NoDup_ForallPairs; [|assumption].
      intros x y _ _ E. now inversion E.
    + exact IH.
    + intros t Ht Hin. apply cross_row_In in Ht as (b & Hb & ->).
      apply in_flat_map in Hin as (a' & Ha' & Hin).
      apply cross_row_In in Hin as (b' & Hb' & E). inversion E; subst. contradiction.
Qed.

Lemma table_check_all : forallb table_check boxes = true.
Proof. vm_compute. reflexivity. Qed.

(** X11 -- The tables: 81 distinct boxes; 29 units of 9 distinct boxes each; a box
    lies in its row, its column and its square, and in each diagonal it is
    on; each diagonal adds 6 peers to the 20 that row, column and square
    give (26 on one diagonal, 32 for E5, which is on both). *)
Theorem tables_shape (box : str) (unit : list str) :
  In box boxes -> In unit units ->
  length boxes = 81 /\ NoDup boxes /\ length units = 29 /\
  length unit = 9 /\ NoDup unit /\ (forall b, In b unit -> In b boxes) /\
  length (boxdict box)
  = 3 + (if box_in box (map fst diag_tuples) then 1 else 0)
      + (if box_in box (map snd diag_tuples) then 1 else 0) /\
  length (peers box)
  = 20 + (if box_in box (map fst diag_tuples) then 6 else 0)
       + (if box_in box (map snd diag_tuples) then 6 else 0).
Proof.
  intros Hb Hu.
  split; [reflexivity|]. split; [apply boxes_NoDup|]. split; [reflexivity|].
  split; [exact (unit_length unit Hu)|]. split; [exact (unit_NoDup unit Hu)|].
  split; [intros b Hbu; exact (unit_boxes unit b Hu Hbu)|].
  pose proof (proj1 (forallb_forall _ _) table_check_all box Hb) as H.
  unfold table_check in H. cbv zeta in H.
  apply andb_true_iff in H as [H1 H2].
  apply Nat.eqb_eq in H1, H2. split; assumption.
Qed.

Lemma tables_shape_witness :
  length boxes = 81 /\ NoDup boxes /\ length units = 29 /\
  length (cross (lit "A") cols) = 9 /\ NoDup (cross (lit "A") cols) /\
  (forall b, In b (cross (lit "A") cols) -> In b boxes) /\
  length (boxdict (lit "E5"))
  = 3 + (if box_in (lit "E5") (map fst diag_tuples) then 1 else 0)
      + (if box_in (lit "E5") (map snd diag_tuples) then 1 else 0) /\
  length (peers (lit "E5"))
  = 20 + (if box_in (lit "E5") (map fst diag_tuples) then 6 else 0)
       + (if box_in (lit "E5") (map snd diag_tuples) then 6 else 0).
Proof.
  apply (tables_shape (lit "E5") (cross (lit "A") cols)).
  - apply box_in_In. vm_compute. reflexivity.
  - left. reflexivity.
Defined.

(** ** The two checks of [search] *)

Lemma count_ge_length (v : board) (l : list str) :
  (forall c, In c l -> v c <> []) -> length l <= length (concat (map v l)).
Proof.
  induction l as [|x l IH]; cbn [map concat length]; intros H; [lia|].
  rewrite length_app.
  assert (Hx : 1 <= length (v x)).
  { specialize (H x (or_introl eq_refl)). destruct (v x); [contradiction | cbn; lia]. }
  assert (length l <= length (concat (map v l)))
    by (apply IH; intros c Hc; apply H; now right).
  lia.
Qed.

Lemma count_gt_length (v : board) (l : list str) (box : str) :
  (forall c, In c l -> v c <> []) -> In box l -> 2 <= length (v box) ->
  length l < length (concat (map v l)).
Proof.
  induction l as [|x l IH]; cbn [map concat length]; intros H Hb H2; [contradiction|].
  rewrite length_app.
  assert (Hl : length l <= length (concat (map v l)))
    by (apply count_ge_length; intros c Hc; apply H; now right).
  destruct Hb as [->|Hb]; [lia|].
  assert (Hx : 1 <= length (v x)).
  { specialize (H x (or_introl eq_refl)). destruct (v x); [contradiction | cbn; lia]. }
  assert (length l < length (concat (map v l))); [|lia].
  apply IH; [intros c Hc; apply H; now right | assumption | assumption].
Qed.

(** X12 -- On a board without empty candidate strings, [is_searchable] is true
    exactly when some box still has two candidates or more. *)
Theorem is_searchable_iff_unsolved_box (values : board) :
  (forall box, In box boxes -> values box <> []) ->
  (is_searchable values = true <->
   exists box, In box boxes /\ 2 <= length (values box)).
Proof.
  intros Hne. unfold is_searchable, tuple. rewrite Nat.ltb_lt. split.
  - intros H. apply searchable_has_unsolved. rewrite boxes_length. exact H.
  - intros (box & Hb & H2). rewrite <- boxes_length.
    exact (count_gt_length values boxes box Hne Hb H2).
Qed.

Lemma is_searchable_iff_unsolved_box_witness :
  is_searchable (grid_values empty_grid) = true <->
  exists box, In box boxes /\ 2 <= length (grid_values empty_grid box).
Proof.
  apply (is_searchable_iff_unsolved_box (grid_values empty_grid)).
  intros box Hb.
  assert (H : forallb (fun b => negb (str_eqb (grid_values empty_grid b) [])) boxes = true)
    by (vm_compute; reflexivity).
  apply (proj1 (forallb_forall _ _) H) in Hb.
  apply negb_true_iff, str_eqb_neq in Hb. exact Hb.
Defined.

Lemma count_concat_units (v : board) (us : list (list str)) :
  (forall u, In u us -> length (concat (map v u)) = 9) ->
  length (concat (map v (concat us))) = 9 * length us.
Proof.
  induction us as [|u us IH]; intros H; [reflexivity|].
  cbn [concat]. rewrite map_app, concat_app, length_app.
  rewrite (H u (or_introl eq_refl)), IH by (intros u' Hu'; apply H; now right).
  cbn [length]. lia.
Qed.

Lemma boxes_by_rows : concat row_units = boxes.
Proof. vm_compute. reflexivity. Qed.

Lemma row_units_in_units (u : list str) : In u row_units -> In u units.
Proof. intros H. unfold units. apply in_or_app. now left. Qed.

(** X13 -- A board that passes [is_solved] has exactly 81 candidate characters, so
    it is never searchable: the two checks of [search] never both hold. *)
Theorem solved_not_searchable (values : board) :
  is_solved values = true ->
  candidate_count values = 81 /\ is_searchable values = false.
Proof.
  intros Hs.
  assert (Hc : candidate_count values = 81).
  { unfold candidate_count, tuple. rewrite <- boxes_by_rows.
    rewrite (count_concat_units values row_units); [reflexivity|].
    intros u Hu.
    rewrite (Permutation_length (is_solved_perm values u Hs (row_units_in_units u Hu))).
    reflexivity. }
  split; [assumption|].
  unfold is_searchable. fold (candidate_count values). rewrite Hc. reflexivity.
Qed.

Lemma solved_not_searchable_witness :
  candidate_count (grid_values solved_grid) = 81 /\
  is_searchable (grid_values solved_grid) = false.
Proof.
  apply (solved_not_searchable (grid_values solved_grid)).
  vm_compute. reflexivity.
Defined.

(** ** [is_solved] and permutations *)

Lemma nat_of_ascii_inj (a b : ascii) : nat_of_ascii a = nat_of_ascii b -> a = b.
Proof.
  intros H. rewrite <- (ascii_nat_embedding a), <- (ascii_nat_embedding b).
  now rewrite H.
Qed.

Lemma insert_char_comm (x y : ascii) (l : str) :
  insert_char x (insert_char y l) = insert_char y (insert_char x l).
Proof.
  induction l as [|z l IH]; cbn [insert_char].
  - destruct (nat_of_ascii x <=? nat_of_ascii y) eqn:E1;
      destruct (nat_of_ascii y <=? nat_of_ascii x) eqn:E2; try reflexivity.
    + apply Nat.leb_le in E1, E2.
      assert (x = y) by (apply nat_of_ascii_inj; lia). now subst.
    + apply Nat.leb_gt in E1, E2. lia.
  - destruct (nat_of_ascii y <=? nat_of_ascii z) eqn:Eyz;
      destruct (nat_of_ascii x <=? nat_of_ascii z) eqn:Exz;
      cbn [insert_char]; rewrite ?Eyz, ?Exz;
      destruct (nat_of_ascii x <=? nat_of_ascii y) eqn:Exy;
      destruct (nat_of_ascii y <=? nat_of_ascii x) eqn:Eyx;
      rewrite ?Eyz, ?Exz; try reflexivity;
      try (apply Nat.leb_le in Exy); try (apply Nat.leb_gt in Exy);
      try (apply Nat.leb_le in Eyx); try (apply Nat.leb_gt in Eyx);
      try (apply Nat.leb_le in Eyz); try (apply Nat.leb_gt in Eyz);
      try (apply Nat.leb_le in Exz); try (apply Nat.leb_gt in Exz);
      try lia;
      try (assert (x = y) by (apply nat_of_ascii_inj; lia); subst; reflexivity);
      try (f_equal; exact IH).
Qed.

Lemma sorted_of_permutation (l l' : str) : Permutation l l' -> sorted l = sorted l'.
Proof.
  induction 1 as [|x l l' P IH|x y l|l l' l'' P1 IH1 P2 IH2]; cbn [sorted].
  - reflexivity.
  - now rewrite IH.
  - apply insert_char_comm.
  - now rewrite IH1.
Qed.

(** X14 -- [is_solved] accepts exactly the boards in which, for every unit, the
    candidate strings of the 9 boxes hold together each digit once -- in any
    order and however they are spread over the boxes. *)
Theorem is_solved_iff_permutation (values : board) :
  is_solved values = true <->
  forall unit, In unit units -> Permutation (concat (map values unit)) cols.
Proof.
  split.
  - intros H unit Hu. exact (is_solved_perm values unit H Hu).
  - intros H. unfold is_solved. apply forallb_forall. intros unit Hu.
    apply str_eqb_eq. rewrite (sorted_of_permutation _ _ (H unit Hu)).
    reflexivity.
Qed.

(** ** Solutions and givens *)

Lemma search_solved_again (hash : list str -> Z) (r : board) :
  is_solved r = true -> is_same hash r (reduce_puzzle (copy r)) = true ->
  search hash 1 r = Some (Solved r).
Proof.
  intros Hs Hsame. cbn [search reduce_loop]. rewrite Hsame. now rewrite Hs.
Qed.

(** X15 -- [search] is idempotent on what it finds: given a board it returned, it
    returns that board again at once (one pass of the loop, no branching). *)
Theorem search_idempotent_on_solutions (hash : list str -> Z) (fuel : nat)
        (values r : board) :
  search hash fuel values = Some (Solved r) ->
  search hash 1 r = Some (Solved r).
Proof.
  intros H. apply search_solved in H as [Hs Hsame].
  now apply search_solved_again.
Qed.

Lemma search_idempotent_on_solutions_witness :
  search length_hash 1 (grid_values solved_grid) = Some (Solved (grid_values solved_grid)).
Proof.
  apply (search_idempotent_on_solutions length_hash 1 (grid_values solved_grid)).
  vm_compute. reflexivity.
Defined.

(** X16 -- [solve] keeps the givens: in a board it returns for an 81-character
    grid, a box whose grid character is not a dot holds that character or
    nothing; it holds that character when the hash does not make the
    returned board collide with its own next pass (then every box holds one
    digit). *)
Theorem solve_keeps_givens (hash : list str -> Z) (fuel : nat) (grid : str)
        (r : board) (i : nat) :
  solve hash fuel grid = Some (Solved r) ->
  length grid = 81 -> i < 81 ->
  nth i grid "."%char <> "."%char ->
  (r (nth i boxes []) = [nth i grid "."%char] \/ r (nth i boxes []) = []) /\
  ((hash (tuple r) = hash (tuple (reduce_puzzle (copy r))) ->
    tuple r = tuple (reduce_puzzle (copy r))) ->
   r (nth i boxes []) = [nth i grid "."%char]).
Proof.
  intros H Hlen Hi Hgiven. unfold solve in H.
  pose proof (search_shrinks hash fuel _ _ H (nth i boxes [])) as Hsub.
  assert (Eg : grid_values grid (nth i boxes []) = [nth i grid "."%char]).
  { unfold grid_values.
    rewrite (dict_of_combine_nth
               (fun val => if Ascii.eqb val "."%char then cols else [val])
               boxes boxes_NoDup grid i)
      by (rewrite ?boxes_length, ?Hlen; exact Hi).
    destruct (Ascii.eqb (nth i grid "."%char) "."%char) eqn:E; [|reflexivity].
    apply Ascii.eqb_eq in E. contradiction. }
  rewrite Eg in Hsub. apply subseq_of_single in Hsub.
  split; [destruct Hsub; [now right | now left]|].
  intros Hhash. apply search_solved in H as [Hs Hsame].
  unfold is_same in Hsame. apply Z.eqb_eq, Hhash, tuple_agree in Hsame.
  assert (Hb : In (nth i boxes []) boxes)
    by (apply nth_In; rewrite boxes_length; exact Hi).
  destruct (pass_fixpoint_solved r (agree_sym _ _ Hsame) Hs _ Hb) as (d & _ & E).
  destruct Hsub as [Hs0|Hs1]; [|assumption].
  rewrite Hs0 in E. inversion E.
Qed.

Lemma solve_keeps_givens_witness :
  (grid_values solved_grid (nth 40 boxes []) = [nth 40 solved_grid "."%char] \/
   grid_values solved_grid (nth 40 boxes []) = []) /\
  ((length_hash (tuple (grid_values solved_grid))
    = length_hash (tuple (reduce_puzzle (copy (grid_values solved_grid)))) ->
    tuple (grid_values solved_grid)
    = tuple (reduce_puzzle (copy (grid_values solved_grid)))) ->
   grid_values solved_grid (nth 40 boxes []) = [nth 40 solved_grid "."%char]).
Proof.
  apply (solve_keeps_givens length_hash 1 solved_grid (grid_values solved_grid) 40).
  - vm_compute. reflexivity.
  - reflexivity.
  - lia.
  - vm_compute. intros H. inversion H.
Defined.

(** ** The order of the peer set *)

Lemma box_in_perm (k : str) (l l' : list str) :
  Permutation l l' -> box_in k l = box_in k l'.
Proof.
  intros P. destruct (box_in k l') eqn:E.
  - apply box_in_In. apply box_in_In in E.
    exact (Permutation_in k (Permutation_sym P) E).
  - destruct (box_in k l) eqn:E'; [|reflexivity].
    apply box_in_In in E'. apply (Permutation_in k P), box_in_In in E'.
    congruence.
Qed.

Lemma eliminate_in_order_fold (order : str -> list str) :
  (forall box, Permutation (order box) (peers box)) ->
  forall l s s', (forall k, s k = s' k) ->
  forall k,
    fold_left (fun values box =>
                 let digit := values box in
                 fold_left (fun values peer =>
                              set_box values peer (str_replace (values peer) digit))
                           (order box) values) l s k
    = fold_left (fun values box =>
                   let digit := values box in
                   fold_left (fun values peer =>
                                set_box values peer (str_replace (values peer) digit))
                             (peers box) values) l s' k.
Proof.
  intros Hp. induction l as [|b l IH]; intros s s' E k; cbn [fold_left]; [apply E|].
  apply IH. intros k'.
  rewrite (eliminate_peers_spec (s b) (order b))
    by (apply (Permutation_NoDup (Permutation_sym (Hp b))), peers_NoDup).
  rewrite (eliminate_peers_spec (s' b) (peers b)) by apply peers_NoDup.
  rewrite (box_in_perm k' _ _ (Hp b)), !E. reflexivity.
Qed.

(** X17 -- [peers[box]] is a set, and Python iterates it in no fixed order: the
    result of [eliminate] is the same for every order in which the peers of
    each box are visited. *)
Theorem eliminate_order_independent (order : str -> list str) (values : board)
        (box : str) :
  (forall b, Permutation (order b) (peers b)) ->
  eliminate_in_order order values box = eliminate values box.
Proof.
  intros Hp. unfold eliminate_in_order, eliminate.
  apply eliminate_in_order_fold; [assumption | reflexivity].
Qed.

Lemma eliminate_order_independent_witness :
  eliminate_in_order (fun b => rev (peers b)) (grid_values solved_grid) (lit "A1")
  = eliminate (grid_values solved_grid) (lit "A1").
Proof.
  apply (eliminate_order_independent (fun b => rev (peers b))).
  intros b. apply Permutation_sym, Permutation_rev.
Defined.

(** ** Printing *)

Lemma center10_length (s : str) : length (center10 s) = Nat.max 10 (length s).
Proof.
  unfold center10. cbv zeta. rewrite !length_app, !repeat_length.
  pose proof (Nat.le_div2_diag_l (10 - length s)) as H.
  rewrite Nat.div2_div in H. lia.
Qed.

Lemma center10_wide (s : str) : 10 <= length s -> center10 s = s.
Proof.
  intros H. unfold center10. cbv zeta.
  replace (10 - length s) with 0 by lia. cbn [Nat.div Nat.divmod fst repeat Nat.sub app].
  now rewrite app_nil_r.
Qed.

Lemma display_row_length (values : board) (row : list str) :
  length row = 9 ->
  length (display_row values row)
  = 6 + list_sum (map (fun box => Nat.max 10 (length (values box))) row).
Proof.
  intros H.
  destruct row as [|b1 [|b2 [|b3 [|b4 [|b5 [|b6 [|b7 [|b8 [|b9 [|b10 r]]]]]]]]]];
    try discriminate.
  unfold display_row, enumerate. cbn [enumerate_from map concat list_sum].
  cbn [Z.add Z.eqb Z.ltb Z.modulo Z.div_eucl Z.pos_div_eucl Z.leb Z.compare
       Pos.compare Pos.compare_cont Z.mul Pos.mul Z.sub Z.opp Z.pos_sub Z.succ_double
       Z.double Z.pred_double Pos.pred_double Pos.add Pos.succ andb fst snd
       Z.ltb Z.eqb Pos.eqb].
  rewrite !length_app, !center10_length. cbn [lit list_ascii_of_string length app].
  unfold list_sum. cbn [fold_right]. lia.
Qed.

(** X18 -- [display] prints 11 lines: the nine rows, with a line of 95 dashes before
    the fourth and the seventh.  A row line holds its nine candidate strings,
    each centred in a field of 10 and never cut, and " | " before the fourth
    and the seventh: 96 characters when no string is longer than 10, one more
    than the dashes. *)
Theorem display_layout (values : board) (row : list str) :
  In row row_units ->
  display values
  = [display_row values (nth 0 row_units []); display_row values (nth 1 row_units []);
     display_row values (nth 2 row_units []); repeat "-"%char 95;
     display_row values (nth 3 row_units []); display_row values (nth 4 row_units []);
     display_row values (nth 5 row_units []); repeat "-"%char 95;
     display_row values (nth 6 row_units []); display_row values (nth 7 row_units []);
     display_row values (nth 8 row_units [])] /\
  length (display_row values row)
  = 6 + list_sum (map (fun box => Nat.max 10 (length (values box))) row) /\
  ((forall box, In box row -> length (values box) <= 10) ->
   length (display_row values row) = 96) /\
  (forall box, 10 <= length (values box) -> center10 (values box) = values box).
Proof.
  intros Hr.
  assert (H9 : length row = 9) by (apply unit_length, row_units_in_units, Hr).
  split; [reflexivity|]. split; [now apply display_row_length|].
  split; [|intros box; apply center10_wide].
  intros Hle. rewrite (display_row_length values row H9).
  assert (E : forall l : list str, (forall box, In box l -> length (values box) <= 10) ->
              list_sum (map (fun box => Nat.max 10 (length (values box))) l)
              = 10 * length l).
  { induction l as [|b l IH]; intros H; [reflexivity|].
    cbn [map length]. change (list_sum (?x :: ?l)) with (x + list_sum l).
    rewrite IH by (intros b' Hb'; apply H; now right).
    specialize (H b (or_introl eq_refl)). lia. }
  rewrite (E row Hle), H9. reflexivity.
Qed.

Lemma display_layout_witness :
  length (display_row (grid_values solved_grid) (cross (lit "A") cols))
  = 6 + list_sum (map (fun box => Nat.max 10 (length (grid_values solved_grid box)))
                      (cross (lit "A") cols)).
Proof.
  assert (Hr : In (cross (lit "A") cols) row_units) by (left; reflexivity).
  destruct (display_layout (grid_values solved_grid) (cross (lit "A") cols) Hr)
    as (_ & Hlen & _).
  exact Hlen.
Defined.

(** ** Branching *)




